(** * My Bookish Companion: the phase orchestrator and its tools

    A shallow embedding of [agent/agent.py]: the completion signal
    [mark_task_complete], the recovery of the phase from the event history,
    the orchestration loop of [BookishOrchestrator._run_async_impl] and the
    metadata lookup [get_book_details], with the properties the
    specification states about them. *)

From Stdlib Require Import ZArith Lia Permutation.
From Stdlib Require Import Numbers.DecimalString.
From stdpp Require Import gmap strings list fin_maps.

Local Open Scope string_scope.
Local Open Scope list_scope.
Local Open Scope nat_scope.

(** ** Session state

    [session.state] is a Python dict from string keys to arbitrary values.
    The values the program itself stores are the flag [True] and phase
    strings; workers store text under their [output_key]. A value of another
    kind under [current_phase] is what the loop calls an unknown phase. *)

Inductive value : Type :=
  | VNone
  | VBool (b : bool)
  | VInt (n : Z)
  | VStr (s : string).

#[global] Instance value_eq_dec : EqDecision value.
Proof. solve_decision. Defined.

Abbreviation state := (gmap string value).

(** [state.get(key, default)] *)
Definition state_get (key : string) (default : value) (st : state) : value :=
  match st !! key with
  | Some v => v
  | None => default
  end.

(** [x == "literal"] where the right-hand side is a string literal: a value
    that is not a string never compares equal to a string. *)
Definition py_eq_str (v : value) (lit : string) : bool :=
  bool_decide (v = VStr lit).

(** ** The completion signal *)

Module Signal.

(** The [if]/[elif] chain of [mark_task_complete]: the pair of
    [next_phase] and [transition_msg], with [current_phase] the value read
    by [state.get("current_phase", "discovery")]. *)
Definition transition (task_name : string) (current_phase : value)
  : value * string :=
  if String.eqb task_name "book_discovery" then
    (VStr "scheduling", "Advancing to Scheduling.")
  else if String.eqb task_name "schedule_creation" then
    (VStr "engagement", "Advancing to Engagement.")
  else if String.eqb task_name "engagement_generation" then
    (VStr "complete", "Workflow Complete.")
  else
    (current_phase, "Staying in current phase.").

(** [mark_task_complete(tool_context, task_name, summary)]: the state after
    the call and the returned string. [summary] is only logged. *)
Definition mark_task_complete (st : state) (task_name summary : string)
  : state * string :=
  let st1 := <[task_name +:+ "_completed" := VBool true]> st in
  let current_phase := state_get "current_phase" (VStr "discovery") st1 in
  let '(next_phase, transition_msg) := transition task_name current_phase in
  let st2 := <["current_phase" := next_phase]> st1 in
  (st2, "Task '" +:+ task_name +:+ "' marked as complete. " +:+ transition_msg).

(** A task name is known when it is one of the three fixed ones. *)
Definition known_task (task_name : string) : Prop :=
  task_name = "book_discovery" ∨ task_name = "schedule_creation"
  ∨ task_name = "engagement_generation".

End Signal.

(** ** Event history and phase recovery *)

(** An event of [ctx.session.events]. [content] is the text [str(event.content)]
    when the event has a [content] attribute and [None] when it has none. *)
Record event : Type := Event { content : option string }.

(** [str(event.content) if hasattr(event, 'content') else ""] *)
Definition content_str (e : event) : string :=
  match content e with
  | Some s => s
  | None => ""
  end.

(** Python's [needle in hay] on strings. *)
Fixpoint contains (needle hay : string) : bool :=
  String.prefix needle hay ||
  match hay with
  | EmptyString => false
  | String _ hay' => contains needle hay'
  end.

(** The event's text contains the marker. *)
Definition mentions (marker : string) (e : event) : bool :=
  contains marker (content_str e).

Module Recovery.

Definition discovery_marker : string := "Task 'book_discovery' marked as complete".
Definition scheduling_marker : string := "Task 'schedule_creation' marked as complete".
Definition engagement_marker : string := "Task 'engagement_generation' marked as complete".

(** The three local booleans of the scan. *)
Record flags : Type := Flags {
  discovery_done : bool;
  scheduling_done : bool;
  engagement_done : bool
}.

Definition no_flags : flags := Flags false false false.

(** The body of [for event in ctx.session.events]. *)
Definition scan_event (f : flags) (e : event) : flags :=
  let s := content_str e in
  let f1 := if contains discovery_marker s
            then Flags true (scheduling_done f) (engagement_done f) else f in
  let f2 := if contains scheduling_marker s
            then Flags (discovery_done f1) true (engagement_done f1) else f1 in
  if contains engagement_marker s
  then Flags (discovery_done f2) (scheduling_done f2) true else f2.

Definition scan (events : list event) : flags :=
  fold_left scan_event events no_flags.

(** The [if]/[elif] chain that picks the restored phase. *)
Definition restored_phase (f : flags) : string :=
  if engagement_done f then "complete"
  else if scheduling_done f then "engagement"
  else if discovery_done f then "scheduling"
  else "discovery".

(** The recovery block of [_run_async_impl]. *)
Definition recover (st : state) (events : list event) : state :=
  match st !! "current_phase" with
  | Some _ => st
  | None => <["current_phase" := VStr (restored_phase (scan events))]> st
  end.

(** Presence of a marker somewhere in the history. *)
Definition marked (marker : string) (events : list event) : Prop :=
  Exists (λ e, contains marker (content_str e) = true) events.

End Recovery.

(** ** The orchestration loop *)

Inductive agent : Type := DiscoveryAgent | SchedulingAgent | EngagementAgent.

#[global] Instance agent_eq_dec : EqDecision agent.
Proof. solve_decision. Defined.

(** One run of [target_agent.run_async(ctx)]: the worker is opaque; all the
    loop sees of it is the session state it leaves behind and the events it
    produces. The first argument is the value of [loop_count] at the
    invocation, so that a worker may behave differently at every turn. *)
Definition worker : Type := nat → agent → state → state * list event.

(** The routing [if]/[elif] chain. *)
Inductive route : Type :=
  | ToAgent (target_agent : agent)
  | Terminal
  | UnknownPhase.

Definition route_phase (current_phase : value) : route :=
  if py_eq_str current_phase "discovery" then ToAgent DiscoveryAgent
  else if py_eq_str current_phase "scheduling" then ToAgent SchedulingAgent
  else if py_eq_str current_phase "engagement" then ToAgent EngagementAgent
  else if py_eq_str current_phase "complete" then Terminal
  else UnknownPhase.

(** What one iteration of the loop did. [Invoked a before after] records the
    phase read before the worker ran and the one found afterwards, [None]
    when the key is gone. *)
Inductive iteration : Type :=
  | SawComplete
  | ResetUnknown (found : value)
  | Invoked (a : agent) (phase_before : value) (phase_after : option value).

(** How the generator ended: one of the two [break]s, the exhausted [while]
    condition, or the [KeyError] of a [state["current_phase"]] read. *)
Inductive ending : Type :=
  | WorkflowComplete
  | WaitingForInput
  | BoundExhausted
  | RaisedKeyError.

Record run : Type := Run {
  final_state : state;
  yielded : list event;
  iterations : list iteration;
  ended : ending
}.

Definition max_loops : nat := 5.

(** Puts one iteration in front of the rest of a run. *)
Definition continue_with (it : iteration) (evs : list event) (r : run) : run :=
  Run (final_state r) (evs ++ yielded r) (it :: iterations r) (ended r).

(** [while loop_count < max_loops], by recursion on [remaining], the number
    [max_loops - loop_count] of iterations still allowed. *)
Fixpoint while_loop (w : worker) (remaining loop_count : nat) (st : state) : run :=
  match remaining with
  | 0 => Run st [] [] BoundExhausted
  | S remaining' =>
    let loop_count := S loop_count in
    match st !! "current_phase" with
    | None => Run st [] [] RaisedKeyError
    | Some current_phase =>
      match route_phase current_phase with
      | Terminal => Run st [] [SawComplete] WorkflowComplete
      | UnknownPhase =>
        let st' := <["current_phase" := VStr "discovery"]> st in
        continue_with (ResetUnknown current_phase) []
              (while_loop w remaining' loop_count st')
      | ToAgent target_agent =>
        let phase_before := current_phase in
        let '(st', evs) := w loop_count target_agent st in
        match st' !! "current_phase" with
        | None =>
          Run st' evs [Invoked target_agent phase_before None] RaisedKeyError
        | Some phase_after =>
          if bool_decide (phase_after ≠ phase_before) then
            continue_with (Invoked target_agent phase_before (Some phase_after)) evs
                  (while_loop w remaining' loop_count st')
          else
            Run st' evs [Invoked target_agent phase_before (Some phase_after)]
                WaitingForInput
        end
      end
    end
  end.

Definition orchestration_loop (w : worker) (st : state) : run :=
  while_loop w max_loops 0 st.

(** [BookishOrchestrator._run_async_impl]: recovery, then the loop. *)
Definition run_async_impl (w : worker) (st : state) (events : list event) : run :=
  orchestration_loop w (Recovery.recover st events).

(** The workers invoked, in order. *)
Definition invoked_agents (its : list iteration) : list agent :=
  omap (λ it, match it with Invoked a _ _ => Some a | _ => None end) its.

(** An iteration that ended in [continue]. *)
Definition continued (it : iteration) : bool :=
  match it with
  | SawComplete => false
  | ResetUnknown _ => true
  | Invoked _ before (Some after) => bool_decide (after ≠ before)
  | Invoked _ _ None => false
  end.

(** ** The order of the phases *)

Inductive phase : Type := Discovery | Scheduling | Engagement | Complete.

Definition phase_name (p : phase) : string :=
  match p with
  | Discovery => "discovery"
  | Scheduling => "scheduling"
  | Engagement => "engagement"
  | Complete => "complete"
  end.

#[global] Instance phase_eq_dec : EqDecision phase.
Proof. solve_decision. Defined.

Definition rank (p : phase) : nat :=
  match p with
  | Discovery => 0
  | Scheduling => 1
  | Engagement => 2
  | Complete => 3
  end.

(** The task whose completion each worker is told to signal. *)
Definition task_of (a : agent) : string :=
  match a with
  | DiscoveryAgent => "book_discovery"
  | SchedulingAgent => "schedule_creation"
  | EngagementAgent => "engagement_generation"
  end.

Definition phase_of_agent (a : agent) : phase :=
  match a with
  | DiscoveryAgent => Discovery
  | SchedulingAgent => Scheduling
  | EngagementAgent => Engagement
  end.

(** A value is a recognised phase when it is one of the four names. *)
Definition recognised (v : value) : Prop :=
  ∃ p, v = VStr (phase_name p).

(** ** Sample workers *)

(** A worker that signals the completion of its own task at every turn and
    produces the confirmation as its only event. *)
Definition diligent : worker :=
  λ _ a st,
    let '(st', msg) := Signal.mark_task_complete st (task_of a) "" in
    (st', [Event (Some msg)]).

(** A worker that never waits for input: it moves the phase on at every
    turn, and from engagement back to discovery. *)
Definition restless : worker :=
  λ _ a st,
    let next := match a with
                | DiscoveryAgent => "scheduling"
                | SchedulingAgent => "engagement"
                | EngagementAgent => "discovery"
                end in
    (<["current_phase" := VStr next]> st, []).

(** A worker that asks the user something and changes no state. *)
Definition asking : worker :=
  λ _ _ st, (st, [Event (Some "How many minutes per day can you dedicate to reading?")]).

(** ** The metadata lookup *)

Module Books.

(** The [volumeInfo] object of a result: each field is [None] when its
    key is absent (a result without [volumeInfo] has all three absent). *)
Record volume_info : Type := VolumeInfo {
  info_title : option string;
  info_authors : option (list string);
  info_pageCount : option Z
}.

(** An entry of [data["items"]]: either one whose inspection goes through,
    or one at which the inspection raises (an entry that is no object, an
    author that is no string). *)
Inductive item_data : Type :=
  | Item (info : volume_info)
  | Malformed.

(** What one request to the text-search source gives: [Failure] stands for
    every exception raised before the results are inspected (building the
    URL, [urlopen], reading, decoding, [json.loads], a payload on which
    ["items" in data] or the slice raises); [Data items] is a decoded
    object, with [items = None] when it has no ["items"] key. *)
Inductive response : Type :=
  | Failure
  | Data (items : option (list item_data)).

(** The source answers a query, and may answer differently each time: the
    first argument counts the requests made before this one. *)
Definition source : Type := nat → string → response.

(** The observable effects of a call, in order. *)
Inductive effect : Type :=
  | Request (q : string) (attempt : nat)
  | Sleep (seconds : nat).

(** How the body of the [try] ends. *)
Inductive outcome : Type :=
  | Return (s : string)
  | Break
  | Raise.

Definition max_retries : nat := 3.

Definition failure_msg : string :=
  "Could not find book details with page counts. Please ask the user for the page count.".

Definition dquote : string := String (Ascii.ascii_of_nat 34) EmptyString.

(** Truth value of an optional string argument: [None] and [""] are false. *)
Definition truthy (x : option string) : bool :=
  match x with
  | Some s => negb (String.eqb s "")
  | None => false
  end.

Definition text (x : option string) : string := default "" x.

(** The list [queries] built at the start of [get_book_details]. *)
Definition build_queries (isbn title author : option string) : list string :=
  (if truthy title && truthy author
   then ["intitle:" +:+ dquote +:+ text title +:+ dquote +:+
         " inauthor:" +:+ dquote +:+ text author +:+ dquote]
   else [])
  ++ (if truthy title
      then ["intitle:" +:+ dquote +:+ text title +:+ dquote] else [])
  ++ (if truthy author
      then ["inauthor:" +:+ dquote +:+ text author +:+ dquote] else [])
  ++ (if truthy isbn then ["isbn:" +:+ text isbn] else []).

(** [sep.join(l)] *)
Fixpoint join (sep : string) (l : list string) : string :=
  match l with
  | [] => ""
  | x :: rest =>
    match rest with
    | [] => x
    | _ => x +:+ sep +:+ join sep rest
    end
  end.

(** [str(n)] for an integer. *)
Definition str_of_Z (n : Z) : string := NilZero.string_of_int (Z.to_int n).

(** [if page_count:] holds for a present, non-zero count. *)
Definition has_pages (info : volume_info) : option Z :=
  match info_pageCount info with
  | Some n => if Z.eqb n 0 then None else Some n
  | None => None
  end.

Definition res_title (info : volume_info) : string :=
  default "Unknown" (info_title info).

Definition res_authors (info : volume_info) : string :=
  join ", " (default ["Unknown"] (info_authors info)).

Definition found_msg (info : volume_info) (page_count : Z) : string :=
  "Found Book: " +:+ res_title info +:+ " by " +:+ res_authors info +:+
  ". Total Pages: " +:+ str_of_Z page_count +:+ ".".

(** The loop over [data["items"][:3]], followed by the [break]. *)
Fixpoint inspect_items (items : list item_data) : outcome :=
  match items with
  | [] => Break
  | Malformed :: _ => Raise
  | Item info :: rest =>
    match has_pages info with
    | Some page_count => Return (found_msg info page_count)
    | None => inspect_items rest
    end
  end.

(** The body of the [try] for one request. *)
Definition try_body (r : response) : outcome :=
  match r with
  | Failure => Raise
  | Data None => Break
  | Data (Some items) => inspect_items (take 3 items)
  end.

(** [for attempt in range(max_retries)] for one query: the returned string
    when the function returns, the effects, and the request count. *)
Fixpoint retry (src : source) (q : string) (attempts : list nat) (calls : nat)
  : option string * list effect * nat :=
  match attempts with
  | [] => (None, [], calls)
  | attempt :: rest =>
    match try_body (src calls q) with
    | Return s => (Some s, [Request q attempt], S calls)
    | Break => (None, [Request q attempt], S calls)
    | Raise =>
      let pause :=
        if (attempt <? max_retries - 1)%nat then [Sleep (2 ^ attempt)] else [] in
      let '(r, effs, calls') := retry src q rest (S calls) in
      (r, Request q attempt :: pause ++ effs, calls')
    end
  end.

(** [for q in queries] *)
Fixpoint lookup_all (src : source) (queries : list string) (calls : nat)
  : option string * list effect :=
  match queries with
  | [] => (None, [])
  | q :: rest =>
    let '(r, effs, calls') := retry src q (seq 0 max_retries) calls in
    match r with
    | Some s => (Some s, effs)
    | None =>
      let '(r', effs') := lookup_all src rest calls' in
      (r', effs ++ effs')
    end
  end.

Definition get_book_details (src : source) (isbn title author : option string)
  : string * list effect :=
  let queries := build_queries isbn title author in
  let '(r, effs) := lookup_all src queries 0 in
  (default failure_msg r, effs).

(** The requests and pauses one query can cause at most. *)
Definition schedule (q : string) : list effect :=
  [Request q 0; Sleep 1; Request q 1; Sleep 2; Request q 2].

Definition is_request (e : effect) : bool :=
  match e with Request _ _ => true | Sleep _ => false end.

End Books.

(** ** Compositions used in the statements *)

(** A worker turn that calls the completion signal once for each task name
    in turn; the runtime records each returned confirmation as an event. *)
Fixpoint signal_each (st : state) (tasks : list string) : state * list event :=
  match tasks with
  | [] => (st, [])
  | task_name :: rest =>
    let '(st1, msg) := Signal.mark_task_complete st task_name "" in
    let '(st2, evs) := signal_each st1 rest in
    (st2, Event (Some msg) :: evs)
  end.

(** The text every confirmation starts with; for the three fixed task names
    it is the marker that recovery searches for. *)
Definition marker_text (task_name : string) : string :=
  "Task '" +:+ task_name +:+ "' marked as complete".

(** The phase that the completion of a task leads to, for the three fixed
    task names. *)
Definition completes (task_name : string) : option phase :=
  if String.eqb task_name "book_discovery" then Some Scheduling
  else if String.eqb task_name "schedule_creation" then Some Engagement
  else if String.eqb task_name "engagement_generation" then Some Complete
  else None.

(** The workers still to run from a phase on. *)
Definition agents_from (p : phase) : list agent :=
  match p with
  | Discovery => [DiscoveryAgent; SchedulingAgent; EngagementAgent]
  | Scheduling => [SchedulingAgent; EngagementAgent]
  | Engagement => [EngagementAgent]
  | Complete => []
  end.

(** The events of the worker invoked in each iteration, when what a worker
    produces depends on the turn and the worker only: iteration [i] of a run
    that starts after [loop_count] iterations has [loop_count = S (k + i)]. *)
Definition forwarded (produce : nat → agent → list event) (k : nat)
    (its : list iteration) : list event :=
  concat (imap (λ i it, match it with
                        | Invoked a _ _ => produce (S (k + i)) a
                        | _ => []
                        end) its).

(** Seconds spent in [time.sleep] and number of requests. *)
Definition sleep_total (effs : list Books.effect) : nat :=
  sum_list_with (λ e, match e with Books.Sleep s => s | _ => 0 end) effs.

Definition request_count (effs : list Books.effect) : nat :=
  length (filter Books.is_request effs).

(** What the lookup looks at in an answer: the first three results. *)
Definition observed (r : Books.response) : Books.response :=
  match r with
  | Books.Data (Some items) => Books.Data (Some (take 3 items))
  | _ => r
  end.

(** A result the lookup passes over: inspected without error, no page count
    or a page count of zero. *)
Definition pageless (it : Books.item_data) : Prop :=
  match it with
  | Books.Item info => Books.has_pages info = None
  | Books.Malformed => False
  end.

(** An answer that arrives without error and shows no page count among its
    first three results. *)
Definition answers_without_pages (r : Books.response) : Prop :=
  match r with
  | Books.Failure => False
  | Books.Data None => True
  | Books.Data (Some items) => Forall pageless (take 3 items)
  end.

(** Every pause of a log lies between attempt [a] and attempt [a + 1] of one
    query and lasts [2 ^ a] seconds. *)
Definition paused_between_attempts (effs : list Books.effect) : Prop :=
  ∀ i s, effs !! i = Some (Books.Sleep s) →
    ∃ q a, 0 < i
      ∧ effs !! (i - 1) = Some (Books.Request q a)
      ∧ effs !! (S i) = Some (Books.Request q (S a))
      ∧ s = 2 ^ a.

(** An answer in which the lookup finds a page count: one of its first three
    results has a non-zero page count, and the results before it are
    inspected without error and have none. *)
Definition hit (r : Books.response) (info : Books.volume_info) (pages : Z) : Prop :=
  ∃ items j,
    r = Books.Data (Some items) ∧ j < 3
    ∧ items !! j = Some (Books.Item info)
    ∧ Books.info_pageCount info = Some pages ∧ pages ≠ 0%Z
    ∧ ∀ i it, i < j → items !! i = Some it → pageless it.

(** An attempt that ends in the [except] branch: the request fails, or the
    inspection meets a malformed result among the first three before it
    meets a page count. *)
Definition raises (r : Books.response) : Prop :=
  r = Books.Failure
  ∨ ∃ items j,
      r = Books.Data (Some items) ∧ j < 3
      ∧ items !! j = Some Books.Malformed
      ∧ ∀ i it, i < j → items !! i = Some it → pageless it.


(** ** Basic facts about keys *)

Lemma length_string_app (s t : string) :
  String.length (s +:+ t) = String.length s + String.length t.
Proof. induction s as [|c s IH]; simpl; [done | by rewrite IH]. Qed.

(** No completion-flag key is the phase key. *)
Lemma flag_key_not_phase (task_name : string) :
  task_name +:+ "_completed" ≠ "current_phase".
Proof.
  intros H.
  assert (Hlen : String.length task_name = 3).
  { apply (f_equal String.length) in H. rewrite length_string_app in H.
    simpl in H. lia. }
  destruct task_name as [|a [|b [|c [|d t]]]]; simpl in Hlen; try lia.
  simpl in H. by inversion H.
Qed.

Lemma transition_unknown (task_name : string) (cur : value) :
  ¬ Signal.known_task task_name →
  Signal.transition task_name cur = (cur, "Staying in current phase.").
Proof.
  intros Hn. unfold Signal.transition.
  destruct (String.eqb_spec task_name "book_discovery") as [->|_].
  { exfalso. apply Hn. by left. }
  destruct (String.eqb_spec task_name "schedule_creation") as [->|_].
  { exfalso. apply Hn. right. by left. }
  destruct (String.eqb_spec task_name "engagement_generation") as [->|_].
  { exfalso. apply Hn. right. by right. }
  done.
Qed.

Lemma mark_task_complete_unfold (st : state) (task_name summary : string) :
  Signal.mark_task_complete st task_name summary =
  (<["current_phase" :=
       (Signal.transition task_name
          (state_get "current_phase" (VStr "discovery") st)).1]>
     (<[task_name +:+ "_completed" := VBool true]> st),
   "Task '" +:+ task_name +:+ "' marked as complete. " +:+
     (Signal.transition task_name
        (state_get "current_phase" (VStr "discovery") st)).2).
Proof.
  unfold Signal.mark_task_complete, state_get.
  rewrite lookup_insert_ne by apply flag_key_not_phase.
  by destruct (Signal.transition _ _).
Qed.

(** ** The completion signal: what it writes and returns *)

(** C1. For every task name and session state, [mark_task_complete] computes
    the next phase by the fixed mapping (book_discovery to scheduling,
    schedule_creation to engagement, engagement_generation to complete, any
    other name to the phase it read, which is "discovery" when the key is
    absent), writes it under [current_phase] so that reading the key back
    gives exactly that value, and returns the confirmation string that names
    the task and the transition. *)
Theorem completion_signal_round_trip (st : state) (task_name summary : string) :
  let r := Signal.mark_task_complete st task_name summary in
  let current := state_get "current_phase" (VStr "discovery") st in
  ∃ next msg,
    (task_name = "book_discovery" ∧ next = VStr "scheduling"
       ∧ msg = "Advancing to Scheduling."
     ∨ task_name = "schedule_creation" ∧ next = VStr "engagement"
       ∧ msg = "Advancing to Engagement."
     ∨ task_name = "engagement_generation" ∧ next = VStr "complete"
       ∧ msg = "Workflow Complete."
     ∨ ¬ Signal.known_task task_name ∧ next = current
       ∧ msg = "Staying in current phase.")
    ∧ r.1 !! "current_phase" = Some next
    ∧ r.2 = "Task '" +:+ task_name +:+ "' marked as complete. " +:+ msg.
Proof.
  intros r current. subst r. rewrite mark_task_complete_unfold. fold current.
  exists (Signal.transition task_name current).1,
         (Signal.transition task_name current).2.
  split; [| split; [apply lookup_insert_eq | done]].
  unfold Signal.transition.
  destruct (String.eqb_spec task_name "book_discovery") as [->|H1];
    [by left |].
  destruct (String.eqb_spec task_name "schedule_creation") as [->|H2];
    [by right; left |].
  destruct (String.eqb_spec task_name "engagement_generation") as [->|H3];
    [by right; right; left |].
  right; right; right. split; [| done].
  by intros [?|[?|?]].
Qed.

(** C2 as stated fails when the key is absent: with an empty session state
    and the unknown task name "small_talk", the call leaves [current_phase]
    set to "discovery", where before it was not set at all. *)
Lemma unknown_task_sets_absent_phase :
  let st : state := ∅ in
  let st' := (Signal.mark_task_complete st "small_talk" "").1 in
  ¬ Signal.known_task "small_talk"
  ∧ st !! "current_phase" = None
  ∧ st' !! "current_phase" = Some (VStr "discovery")
  ∧ st' !! "current_phase" ≠ st !! "current_phase".
Proof.
  cbv zeta. rewrite mark_task_complete_unfold. cbn [fst].
  rewrite lookup_insert_eq, lookup_empty.
  repeat split; [| done].
  by intros [?|[?|?]].
Qed.

(** C2, amended. For every session state and every task name outside the
    three fixed ones, the completion signal returns (it has no failing
    path), leaves a [current_phase] that is set exactly as it was, sets an
    absent [current_phase] to "discovery", and returns the message that says
    the workflow is staying in the current phase. *)
Theorem unknown_task_keeps_set_phase (st : state) (task_name summary : string) :
  ¬ Signal.known_task task_name →
  let r := Signal.mark_task_complete st task_name summary in
  (∀ v, st !! "current_phase" = Some v → r.1 !! "current_phase" = Some v)
  ∧ (st !! "current_phase" = None →
     r.1 !! "current_phase" = Some (VStr "discovery"))
  ∧ r.2 = "Task '" +:+ task_name +:+
          "' marked as complete. Staying in current phase.".
Proof.
  intros Hn r. subst r. rewrite mark_task_complete_unfold.
  rewrite transition_unknown by done. cbn [fst snd].
  rewrite lookup_insert_eq. unfold state_get.
  repeat split.
  - by intros v ->.
  - by intros ->.
Qed.

Lemma unknown_task_keeps_set_phase_witness :
  let st : state := {["current_phase" := VStr "scheduling"]} in
  ¬ Signal.known_task "small_talk"
  ∧ (Signal.mark_task_complete st "small_talk" "").1 !! "current_phase"
    = Some (VStr "scheduling").
Proof.
  assert (Hn : ¬ Signal.known_task "small_talk") by (by intros [?|[?|?]]).
  split; [exact Hn |].
  apply (unknown_task_keeps_set_phase
           {["current_phase" := VStr "scheduling"]} "small_talk" "" Hn).
  apply lookup_singleton_eq.
Defined.

(** C9. For every string passed as task name, the completion signal writes
    the key [<task_name>_completed] with value [True]; for a name outside the
    three fixed ones this flag is written although the phase, as the signal
    reads it, is the same before and after. *)
Theorem completion_flag_always_written (st : state) (task_name summary : string) :
  let st' := (Signal.mark_task_complete st task_name summary).1 in
  st' !! (task_name +:+ "_completed") = Some (VBool true)
  ∧ (¬ Signal.known_task task_name →
     state_get "current_phase" (VStr "discovery") st'
     = state_get "current_phase" (VStr "discovery") st).
Proof.
  cbv zeta. rewrite mark_task_complete_unfold. cbn [fst]. split.
  - rewrite lookup_insert_ne by (intros H; symmetry in H;
      by apply flag_key_not_phase in H).
    apply lookup_insert_eq.
  - intros Hn. rewrite transition_unknown by done. cbn [fst].
    unfold state_get at 1. by rewrite lookup_insert_eq.
Qed.

Lemma completion_flag_always_written_witness :
  let st' := (Signal.mark_task_complete ∅ "small_talk" "").1 in
  st' !! "small_talk_completed" = Some (VBool true)
  ∧ state_get "current_phase" (VStr "discovery") st' = VStr "discovery".
Proof.
  destruct (completion_flag_always_written ∅ "small_talk" "") as [Hflag Hphase].
  split; [exact Hflag |].
  apply Hphase. by intros [?|[?|?]].
Defined.

(** ** Phase recovery *)

Section Scan.

Import Recovery.

(** Each flag of the scan is the disjunction of its start value and the
    presence of its marker in some event. *)
Lemma scan_fold (events : list event) (f : flags) :
  let f' := fold_left scan_event events f in
  discovery_done f' = discovery_done f || existsb (mentions discovery_marker) events
  ∧ scheduling_done f' = scheduling_done f || existsb (mentions scheduling_marker) events
  ∧ engagement_done f' = engagement_done f || existsb (mentions engagement_marker) events.
Proof.
  revert f. induction events as [|e events IH]; intros f; cbn zeta.
  - simpl. by rewrite !orb_false_r.
  - simpl fold_left. destruct (IH (scan_event f e)) as (Hd & Hs & He).
    rewrite Hd, Hs, He. clear IH Hd Hs He.
    unfold scan_event, mentions. simpl existsb.
    destruct (contains discovery_marker (content_str e)),
             (contains scheduling_marker (content_str e)),
             (contains engagement_marker (content_str e));
      destruct f as [[] [] []]; simpl; done.
Qed.

Lemma marked_existsb (marker : string) (events : list event) :
  marked marker events ↔ existsb (mentions marker) events = true.
Proof.
  unfold marked. rewrite existsb_exists, Exists_exists.
  split; intros (e & He & Hm); exists e; split; try done;
    by apply list_elem_of_In.
Qed.

Lemma marked_perm (marker : string) (events events' : list event) :
  events ≡ₚ events' → marked marker events → marked marker events'.
Proof.
  unfold marked. intros Hp. rewrite !Exists_exists.
  intros (e & He & Hm). exists e. split; [| done]. by rewrite <- Hp.
Qed.

Lemma scan_flags (events : list event) :
  discovery_done (scan events) = existsb (mentions discovery_marker) events
  ∧ scheduling_done (scan events) = existsb (mentions scheduling_marker) events
  ∧ engagement_done (scan events) = existsb (mentions engagement_marker) events.
Proof. apply (scan_fold events no_flags). Qed.

Lemma existsb_perm (marker : string) (events events' : list event) :
  events ≡ₚ events' →
  existsb (mentions marker) events = existsb (mentions marker) events'.
Proof.
  intros Hp. apply eq_true_iff_eq. rewrite <- !marked_existsb.
  split; apply marked_perm; [done | by symmetry].
Qed.

Lemma restored_phase_perm (events events' : list event) :
  events ≡ₚ events' →
  restored_phase (scan events) = restored_phase (scan events').
Proof.
  intros Hp. unfold restored_phase.
  destruct (scan_flags events) as (-> & -> & ->).
  destruct (scan_flags events') as (-> & -> & ->).
  by rewrite !(existsb_perm _ events events').
Qed.

End Scan.

(** C3. Phase recovery changes nothing when [current_phase] is set.
    Otherwise it sets [current_phase], for every event history, by the
    presence of the markers alone, the most advanced one winning: complete
    when the engagement marker occurs, else engagement when the scheduling
    marker occurs, else scheduling when the discovery marker occurs, else
    (and so for an empty history) discovery; reordering the history does not
    change the outcome. *)
Theorem phase_recovery_priority (st : state) (events : list event) :
  (is_Some (st !! "current_phase") → Recovery.recover st events = st)
  ∧ (st !! "current_phase" = None →
     ∃ p, Recovery.recover st events = <["current_phase" := VStr p]> st
       ∧ (Recovery.marked Recovery.engagement_marker events → p = "complete")
       ∧ (¬ Recovery.marked Recovery.engagement_marker events →
          Recovery.marked Recovery.scheduling_marker events → p = "engagement")
       ∧ (¬ Recovery.marked Recovery.engagement_marker events →
          ¬ Recovery.marked Recovery.scheduling_marker events →
          Recovery.marked Recovery.discovery_marker events → p = "scheduling")
       ∧ (¬ Recovery.marked Recovery.engagement_marker events →
          ¬ Recovery.marked Recovery.scheduling_marker events →
          ¬ Recovery.marked Recovery.discovery_marker events → p = "discovery")
       ∧ (events = [] → p = "discovery"))
  ∧ (∀ events', events ≡ₚ events' →
     Recovery.recover st events' = Recovery.recover st events).
Proof.
  split; [| split].
  - intros [v Hv]. unfold Recovery.recover. by rewrite Hv.
  - intros Hnone. exists (Recovery.restored_phase (Recovery.scan events)).
    split; [unfold Recovery.recover; by rewrite Hnone |].
    unfold Recovery.restored_phase.
    destruct (scan_flags events) as (-> & -> & ->).
    rewrite !marked_existsb.
    assert (Hempty : events = [] →
      (if existsb (mentions Recovery.engagement_marker) events then "complete"
       else if existsb (mentions Recovery.scheduling_marker) events
            then "engagement"
       else if existsb (mentions Recovery.discovery_marker) events
            then "scheduling" else "discovery") = "discovery")
      by (by intros ->).
    revert Hempty.
    destruct (existsb (mentions Recovery.engagement_marker) events),
             (existsb (mentions Recovery.scheduling_marker) events),
             (existsb (mentions Recovery.discovery_marker) events);
      intros Hempty; repeat split; try done; intros; congruence.
  - intros events' Hp. unfold Recovery.recover.
    destruct (st !! "current_phase"); [done |].
    by rewrite (restored_phase_perm events events').
Qed.

Lemma phase_recovery_priority_witness :
  let events := [Event (Some "Task 'schedule_creation' marked as complete. Advancing to Engagement.");
                 Event None;
                 Event (Some "Task 'book_discovery' marked as complete. Advancing to Scheduling.")] in
  Recovery.recover ∅ events = <["current_phase" := VStr "engagement"]> ∅.
Proof.
  intros events.
  destruct (phase_recovery_priority ∅ events) as (_ & Hset & _).
  destruct (Hset (lookup_empty _)) as (p & Hp & _ & Hsched & _).
  rewrite Hp. f_equal. f_equal. apply Hsched.
  - unfold Recovery.marked. rewrite Exists_exists.
    intros (e & He & Hm). subst events.
    rewrite !elem_of_cons in He. destruct He as [->|[->|[->|He]]];
      [vm_compute in Hm; discriminate.. | by apply elem_of_nil in He].
  - apply Exists_cons_hd. by vm_compute.
Defined.

(** ** The orchestration loop: bound and endings *)

Lemma invoked_agents_length (its : list iteration) :
  length (invoked_agents its) ≤ length its.
Proof.
  induction its as [|[| |] its IH]; simpl; lia.
Qed.

Lemma while_loop_length (w : worker) (remaining loop_count : nat) (st : state) :
  length (iterations (while_loop w remaining loop_count st)) ≤ remaining.
Proof.
  revert loop_count st.
  induction remaining as [|n IH]; intros k st; simpl; [done |].
  destruct (st !! "current_phase") as [cur|]; simpl; [| lia].
  destruct (route_phase cur); simpl.
  - destruct (w (S k) target_agent st) as [st' evs].
    destruct (st' !! "current_phase") as [aft|]; simpl; [| lia].
    case_bool_decide; simpl; [| lia].
    specialize (IH (S k) st'). lia.
  - lia.
  - specialize (IH (S k) (<["current_phase" := VStr "discovery"]> st)). lia.
Qed.

(** The [while] condition is what ends the loop exactly when every allowed
    iteration was used and each ended in [continue]. *)
Lemma while_loop_exhausted (w : worker) (remaining loop_count : nat) (st : state) :
  let r := while_loop w remaining loop_count st in
  ended r = BoundExhausted ↔
  length (iterations r) = remaining
  ∧ Forall (λ it, continued it = true) (iterations r).
Proof.
  revert loop_count st.
  induction remaining as [|n IH]; intros k st; simpl.
  { split; [by split; [| constructor] | done]. }
  destruct (st !! "current_phase") as [cur|]; simpl;
    [| split; [done | by intros [? _]]].
  destruct (route_phase cur); simpl.
  - destruct (w (S k) target_agent st) as [st' evs].
    destruct (st' !! "current_phase") as [aft|]; simpl.
    + case_bool_decide as Hch; simpl.
      * rewrite (IH (S k) st'). rewrite Forall_cons. simpl.
        rewrite bool_decide_eq_true. split.
        -- intros [-> ?]. done.
        -- intros [? [_ ?]]. split; [lia | done].
      * split; [done |]. intros [_ HF]. apply Forall_cons in HF as [HF _].
        simpl in HF. by apply bool_decide_eq_true in HF.
    + split; [done |]. intros [_ HF]. by apply Forall_cons in HF as [HF _].
  - split; [done |]. intros [_ HF]. by apply Forall_cons in HF as [HF _].
  - rewrite (IH (S k) _). rewrite Forall_cons. simpl. split.
    + intros [-> ?]. done.
    + intros [? [_ ?]]. split; [lia | done].
Qed.

(** A [KeyError] needs a missing key: at entry, or after a worker. *)
Lemma while_loop_key_error (w : worker) (remaining loop_count : nat) (st : state) :
  is_Some (st !! "current_phase") →
  (∀ k a s, is_Some (s !! "current_phase") →
            is_Some ((w k a s).1 !! "current_phase")) →
  ended (while_loop w remaining loop_count st) ≠ RaisedKeyError.
Proof.
  intros Hst Hw. revert loop_count st Hst.
  induction remaining as [|n IH]; intros k st [cur Hcur]; simpl; [done |].
  rewrite Hcur. destruct (route_phase cur); simpl; [| done |].
  - pose proof (Hw (S k) target_agent st (mk_is_Some _ _ Hcur)) as Hk.
    destruct (w (S k) target_agent st) as [st' evs]. simpl in Hk.
    destruct Hk as [aft Haft]. rewrite Haft.
    case_bool_decide; simpl; [| done].
    apply IH. by exists aft.
  - apply IH. rewrite lookup_insert_eq. by eexists.
Qed.

(** C4. For every session state and every worker behaviour, one run of the
    orchestration loop takes at most 5 iterations and so invokes at most 5
    worker turns, with or without the recovery in front; when all 5
    iterations are used and each ended in [continue] (no complete phase, no
    unchanged phase), the loop ends on its exhausted bound, which is a normal
    end and not an error. *)
Theorem loop_invokes_at_most_five (w : worker) (st : state) (events : list event) :
  let r := orchestration_loop w st in
  length (invoked_agents (iterations r)) ≤ 5
  ∧ length (invoked_agents (iterations (run_async_impl w st events))) ≤ 5
  ∧ length (iterations r) ≤ 5
  ∧ (length (iterations r) = 5 →
     Forall (λ it, continued it = true) (iterations r) →
     ended r = BoundExhausted ∧ ended r ≠ RaisedKeyError)
  ∧ (ended r = BoundExhausted → length (iterations r) = 5).
Proof.
  assert (Hb : ∀ s, length (invoked_agents (iterations (orchestration_loop w s))) ≤ 5).
  { intros s. etrans; [apply invoked_agents_length |].
    apply (while_loop_length w max_loops 0 s). }
  cbv zeta. split; [apply Hb |]. split; [apply Hb |].
  split; [apply (while_loop_length w max_loops 0 st) |].
  pose proof (while_loop_exhausted w max_loops 0 st) as Hex. cbv zeta in Hex.
  fold (orchestration_loop w st) in Hex. split.
  - intros Hlen Hall.
    assert (ended (orchestration_loop w st) = BoundExhausted) as ->
      by (apply Hex; by split).
    done.
  - intros He. by apply Hex in He as [He _].
Qed.

Lemma loop_invokes_at_most_five_witness :
  let st : state := {["current_phase" := VStr "discovery"]} in
  let r := orchestration_loop restless st in
  length (invoked_agents (iterations r)) = 5
  ∧ ended r = BoundExhausted.
Proof.
  intros st r. split; [by vm_compute |].
  apply (loop_invokes_at_most_five restless st []).
  - by vm_compute.
  - vm_compute. repeat constructor.
Defined.

(** ** The orchestration loop: chaining *)

Lemma phase_name_inj (p q : phase) : phase_name p = phase_name q → p = q.
Proof. by destruct p, q. Qed.

Lemma route_phase_agent (a : agent) :
  route_phase (VStr (phase_name (phase_of_agent a))) = ToAgent a.
Proof. by destruct a. Qed.

Lemma route_phase_unknown (v : value) :
  ¬ recognised v → route_phase v = UnknownPhase.
Proof.
  intros Hn. unfold route_phase, py_eq_str.
  repeat case_bool_decide; try done; subst; exfalso; apply Hn.
  - by exists Discovery.
  - by exists Scheduling.
  - by exists Engagement.
  - by exists Complete.
Qed.

(** One iteration on a phase that has a worker. *)
Lemma while_loop_invoke (w : worker) (n k : nat) (st st' : state)
    (a : agent) (evs : list event) (aft : value) :
  st !! "current_phase" = Some (VStr (phase_name (phase_of_agent a))) →
  w (S k) a st = (st', evs) →
  st' !! "current_phase" = Some aft →
  while_loop w (S n) k st =
  if bool_decide (aft ≠ VStr (phase_name (phase_of_agent a))) then
    continue_with
      (Invoked a (VStr (phase_name (phase_of_agent a))) (Some aft)) evs
      (while_loop w n (S k) st')
  else
    Run st' evs [Invoked a (VStr (phase_name (phase_of_agent a))) (Some aft)]
        WaitingForInput.
Proof.
  intros Hcur Hw Haft. simpl. rewrite Hcur, route_phase_agent, Hw, Haft. done.
Qed.

(** C5 as stated fails: the engagement worker signals its task, the phase
    changes from engagement to complete during that invocation, and the loop
    invokes no other worker. *)
Lemma change_to_complete_invokes_no_worker :
  let st : state := {["current_phase" := VStr "engagement"]} in
  let r := orchestration_loop diligent st in
  iterations r =
    [Invoked EngagementAgent (VStr "engagement") (Some (VStr "complete"));
     SawComplete]
  ∧ invoked_agents (iterations r) = [EngagementAgent]
  ∧ ¬ (VStr "complete" ≠ VStr "engagement"
       ↔ 1 < length (invoked_agents (iterations r))).
Proof.
  cbv zeta.
  assert (Hits : iterations (orchestration_loop diligent
                   {["current_phase" := VStr "engagement"]}) =
    [Invoked EngagementAgent (VStr "engagement") (Some (VStr "complete"));
     SawComplete]) by (by vm_compute).
  rewrite Hits. split; [done |]. split; [done |].
  simpl. intros [H _]. assert (1 < 1) by (by apply H). lia.
Qed.

(** C5, amended. Within one run of the loop: when the phase read at the top
    of an iteration is complete, the loop stops without invoking a worker.
    After a worker invocation the loop goes on to another iteration exactly
    when the phase changed during it and an iteration is left; that
    iteration invokes the worker of the new phase when the new phase is
    discovery, scheduling or engagement (so a change from scheduling to
    engagement runs the engagement worker in the same interaction) and
    invokes none when it is complete. An unchanged phase ends the loop with
    no further worker invoked, and a further worker is only ever invoked
    after a change. *)
Theorem loop_chains_on_phase_change (w : worker) (n k : nat) (st st' : state)
    (a : agent) (evs : list event) (aft : value) :
  let before := VStr (phase_name (phase_of_agent a)) in
  let r := while_loop w (S n) k st in
  (∀ s, s !! "current_phase" = Some (VStr "complete") →
        while_loop w (S n) k s = Run s [] [SawComplete] WorkflowComplete
        ∧ invoked_agents (iterations (while_loop w (S n) k s)) = [])
  ∧ (st !! "current_phase" = Some before →
     w (S k) a st = (st', evs) →
     st' !! "current_phase" = Some aft →
     (aft = before →
        r = Run st' evs [Invoked a before (Some aft)] WaitingForInput
        ∧ invoked_agents (iterations r) = [a])
     ∧ (aft ≠ before →
        r = continue_with (Invoked a before (Some aft)) evs
              (while_loop w n (S k) st'))
     ∧ (∀ b, aft ≠ before → aft = VStr (phase_name (phase_of_agent b)) →
             0 < n →
             ∃ rest, invoked_agents (iterations r) = a :: b :: rest)
     ∧ (a = SchedulingAgent → aft = VStr "engagement" → 0 < n →
        ∃ rest, invoked_agents (iterations r)
                = SchedulingAgent :: EngagementAgent :: rest)
     ∧ (aft = VStr "complete" → invoked_agents (iterations r) = [a])
     ∧ (n = 0 → invoked_agents (iterations r) = [a])
     ∧ (1 < length (invoked_agents (iterations r)) → aft ≠ before)).
Proof.
  intros before r.
  assert (Hcomplete : ∀ m j s, s !! "current_phase" = Some (VStr "complete") →
            while_loop w (S m) j s = Run s [] [SawComplete] WorkflowComplete).
  { intros m j s Hs. simpl. by rewrite Hs. }
  split.
  { intros s Hs. by rewrite (Hcomplete n k s Hs). }
  intros Hcur Hw Haft.
  assert (Hr : r = if bool_decide (aft ≠ before)
                   then continue_with (Invoked a before (Some aft)) evs
                          (while_loop w n (S k) st')
                   else Run st' evs [Invoked a before (Some aft)]
                          WaitingForInput)
    by (by apply while_loop_invoke).
  assert (Hnext : ∀ b, aft = VStr (phase_name (phase_of_agent b)) → 0 < n →
            ∃ rest, invoked_agents (iterations (while_loop w n (S k) st'))
                    = b :: rest).
  { intros b Hb Hn. destruct n as [|m]; [lia |].
    destruct (w (S (S k)) b st') as [st'' evs'] eqn:Hw'.
    simpl. rewrite Haft, Hb, route_phase_agent, Hw'.
    destruct (st'' !! "current_phase") as [aft'|]; [| by eexists].
    destruct (bool_decide (aft' ≠ _)); simpl; by eexists. }
  split; [| split; [| split; [| split; [| split; [| split]]]]].
  - intros Heq. rewrite Hr, bool_decide_eq_false_2 by (by intros ?). done.
  - intros Hne. by rewrite Hr, bool_decide_eq_true_2.
  - intros b Hne Hb Hn. rewrite Hr, bool_decide_eq_true_2 by done.
    destruct (Hnext b Hb Hn) as [rest Hrest]. exists rest.
    simpl. by rewrite Hrest.
  - intros Ha Hb Hn.
    rewrite Hr, bool_decide_eq_true_2 by (subst before; by rewrite Hb, Ha).
    destruct (Hnext EngagementAgent Hb Hn) as [rest Hrest]. exists rest.
    simpl. rewrite Hrest. by rewrite Ha.
  - intros Hc. rewrite Hr.
    rewrite bool_decide_eq_true_2 by (subst before; rewrite Hc; by destruct a).
    destruct n as [|m]; [done |]. rewrite Hc in Haft.
    by rewrite (Hcomplete m (S k) st' Haft).
  - intros Hn. rewrite Hr. subst n. by case_bool_decide.
  - rewrite Hr. case_bool_decide; [done | simpl; lia].
Qed.

Lemma loop_chains_on_phase_change_witness :
  let st : state := {["current_phase" := VStr "scheduling"]} in
  ∃ rest, invoked_agents (iterations (orchestration_loop diligent st))
          = SchedulingAgent :: EngagementAgent :: rest.
Proof.
  intros st.
  pose (st' := (Signal.mark_task_complete st "schedule_creation" "").1).
  pose (evs := [Event (Some (Signal.mark_task_complete st "schedule_creation" "").2)]).
  destruct (loop_chains_on_phase_change diligent 4 0 st st'
              SchedulingAgent evs (VStr "engagement")) as [_ H].
  destruct H as (_ & _ & _ & Hchain & _).
  - by vm_compute.
  - by vm_compute.
  - by vm_compute.
  - apply Hchain; [reflexivity | reflexivity | lia].
Defined.

(** ** The orchestration loop: unknown phase values *)

(** C7. For every session state whose [current_phase] holds a value outside
    the four phase names, the loop invokes no worker for that value: its
    first iteration only resets [current_phase] to discovery, the second
    iteration follows at once and invokes the discovery worker on the reset
    state, and no error comes out of it (a [KeyError] would need a worker
    that removes the key). The same reset happens at any iteration of the
    loop. *)
Theorem unknown_phase_self_heals (w : worker) (st : state) (v : value) :
  st !! "current_phase" = Some v →
  ¬ recognised v →
  let healed : state := <["current_phase" := VStr "discovery"]> st in
  let r := orchestration_loop w st in
  r = continue_with (ResetUnknown v) [] (while_loop w 4 1 healed)
  ∧ (∃ rest, iterations r =
       ResetUnknown v
       :: Invoked DiscoveryAgent (VStr "discovery")
            ((w 2 DiscoveryAgent healed).1 !! "current_phase")
       :: rest)
  ∧ (∃ rest, invoked_agents (iterations r) = DiscoveryAgent :: rest)
  ∧ ((∀ k a s, is_Some (s !! "current_phase") →
               is_Some ((w k a s).1 !! "current_phase")) →
     ended r ≠ RaisedKeyError)
  ∧ (∀ n k, while_loop w (S n) k st =
            continue_with (ResetUnknown v) [] (while_loop w n (S k) healed)).
Proof.
  intros Hcur Hun healed r.
  assert (Hstep : ∀ n k, while_loop w (S n) k st =
            continue_with (ResetUnknown v) [] (while_loop w n (S k) healed)).
  { intros n k. simpl. by rewrite Hcur, route_phase_unknown. }
  assert (Hr : r = continue_with (ResetUnknown v) [] (while_loop w 4 1 healed))
    by apply Hstep.
  assert (Hits : ∃ rest, iterations (while_loop w 4 1 healed) =
            Invoked DiscoveryAgent (VStr "discovery")
              ((w 2 DiscoveryAgent healed).1 !! "current_phase") :: rest).
  { simpl. unfold healed at 1. rewrite lookup_insert_eq. simpl.
    destruct (w 2 DiscoveryAgent healed) as [st' evs]. simpl.
    destruct (st' !! "current_phase") as [aft|]; [| by eexists].
    destruct (bool_decide (aft ≠ _)); simpl; by eexists. }
  destruct Hits as [rest Hrest].
  split; [done |]. split; [| split; [| split]]; try done.
  - exists rest. rewrite Hr. unfold continue_with. cbn [iterations].
    by rewrite Hrest.
  - eexists. rewrite Hr. unfold continue_with. cbn [iterations].
    rewrite Hrest. reflexivity.
  - intros Hw. apply while_loop_key_error; [by eexists | done].
Qed.

Lemma unknown_phase_self_heals_witness :
  let st : state := {["current_phase" := VStr "reading"]} in
  ∃ rest, invoked_agents (iterations (orchestration_loop asking st))
          = DiscoveryAgent :: rest.
Proof.
  intros st.
  destruct (unknown_phase_self_heals asking st (VStr "reading"))
    as (_ & _ & Hinv & _).
  - by vm_compute.
  - intros [[] Hp]; vm_compute in Hp; discriminate.
  - exact Hinv.
Defined.

(** ** The order of the phases under the completion signal *)

(** C6 as stated fails: in phase engagement, the signal for book_discovery
    sets the phase back to scheduling; in phase discovery, the signal for
    engagement_generation skips to complete. *)
Lemma completion_signal_ignores_order :
  let st : state := {["current_phase" := VStr (phase_name Engagement)]} in
  let st0 : state := {["current_phase" := VStr (phase_name Discovery)]} in
  (Signal.mark_task_complete st "book_discovery" "").1 !! "current_phase"
    = Some (VStr (phase_name Scheduling))
  ∧ rank Scheduling < rank Engagement
  ∧ (Signal.mark_task_complete st0 "engagement_generation" "").1 !! "current_phase"
    = Some (VStr (phase_name Complete))
  ∧ rank Discovery + 1 < rank Complete.
Proof.
  cbv zeta. rewrite !mark_task_complete_unfold. cbn [fst].
  rewrite !lookup_insert_eq. simpl. repeat split; lia.
Qed.

(** C6, amended. The completion signal assigns the phase that its fixed
    mapping gives for the task name, whatever the current phase is. Invoked
    with the task name of the worker of the current phase it moves the phase
    exactly one step forward along discovery, scheduling, engagement,
    complete; invoked with an unrecognised name it leaves a set phase as it
    is; invoked with a recognised name it assigns a phase of the enumeration
    that depends on the name alone. The loop itself, with workers that leave
    the phase alone, keeps a recognised phase and turns an unrecognised one
    into discovery. *)
Theorem phase_moves_forward_on_own_task (w : worker) (st : state) (a : agent) :
  let signal s t := (Signal.mark_task_complete s t "").1 !! "current_phase" in
  (st !! "current_phase" = Some (VStr (phase_name (phase_of_agent a))) →
   ∃ p', signal st (task_of a) = Some (VStr (phase_name p'))
         ∧ rank p' = rank (phase_of_agent a) + 1)
  ∧ (∀ t v, ¬ Signal.known_task t → st !! "current_phase" = Some v →
            signal st t = Some v)
  ∧ (∀ t, Signal.known_task t →
          ∃ p', ∀ s, signal s t = Some (VStr (phase_name p')))
  ∧ ((∀ k b s, (w k b s).1 !! "current_phase" = s !! "current_phase") →
     (∀ p, st !! "current_phase" = Some (VStr (phase_name p)) →
           final_state (orchestration_loop w st) !! "current_phase"
           = Some (VStr (phase_name p)))
     ∧ (∀ v, st !! "current_phase" = Some v → ¬ recognised v →
             final_state (orchestration_loop w st) !! "current_phase"
             = Some (VStr "discovery"))).
Proof.
  cbv zeta. split; [| split; [| split]].
  - intros _. rewrite mark_task_complete_unfold. cbn [fst].
    rewrite lookup_insert_eq.
    destruct a; [by exists Scheduling | by exists Engagement | by exists Complete].
  - intros t v Hn Hv. rewrite mark_task_complete_unfold. cbn [fst].
    rewrite lookup_insert_eq, transition_unknown by done.
    unfold state_get. by rewrite Hv.
  - intros t [-> | [-> | ->]];
      [exists Scheduling | exists Engagement | exists Complete];
      intros s; rewrite mark_task_complete_unfold; cbn [fst];
      by rewrite lookup_insert_eq.
  - intros Hw.
    assert (Hkeep : ∀ n k s p, s !! "current_phase" = Some (VStr (phase_name p)) →
              final_state (while_loop w (S n) k s) !! "current_phase"
              = Some (VStr (phase_name p))).
    { intros n k s p Hs. simpl. rewrite Hs.
      assert (Hrun : ∀ b,
                final_state
                  (let '(s', evs) := w (S k) b s in
                   match s' !! "current_phase" with
                   | Some aft =>
                     if bool_decide (aft ≠ VStr (phase_name p))
                     then continue_with
                            (Invoked b (VStr (phase_name p)) (Some aft)) evs
                            (while_loop w n (S k) s')
                     else Run s' evs
                            [Invoked b (VStr (phase_name p)) (Some aft)]
                            WaitingForInput
                   | None =>
                     Run s' evs [Invoked b (VStr (phase_name p)) None]
                         RaisedKeyError
                   end) !! "current_phase" = Some (VStr (phase_name p))).
      { intros b. pose proof (Hw (S k) b s) as Hsame.
        destruct (w (S k) b s) as [s' evs]. simpl in Hsame.
        rewrite Hs in Hsame. rewrite Hsame.
        by rewrite bool_decide_eq_false_2 by (by intros ?). }
      destruct p; simpl; try done; apply Hrun. }
    split.
    + intros p Hp. by apply Hkeep.
    + intros v Hv Hun. unfold orchestration_loop, max_loops.
      cbn [while_loop]. rewrite Hv, route_phase_unknown by done.
      cbn [continue_with final_state].
      apply (Hkeep 3 1 _ Discovery). apply lookup_insert_eq.
Qed.

Lemma phase_moves_forward_on_own_task_witness :
  let st : state := {["current_phase" := VStr "scheduling"]} in
  ∃ p', (Signal.mark_task_complete st "schedule_creation" "").1 !! "current_phase"
        = Some (VStr (phase_name p'))
        ∧ rank p' = 2.
Proof.
  intros st.
  destruct (phase_moves_forward_on_own_task asking st SchedulingAgent)
    as [Hstep _].
  apply Hstep. by vm_compute.
Defined.

(** ** The metadata lookup *)

Section Lookup.

Import Books.

Variable src : source.

(** A returned string is the found-string of a result with a page count. *)
Lemma inspect_items_return (items : list item_data) (s : string) :
  inspect_items items = Return s →
  ∃ i info pages,
    items !! i = Some (Item info) ∧ info_pageCount info = Some pages
    ∧ pages ≠ 0%Z ∧ s = found_msg info pages.
Proof.
  induction items as [|[info|] items IH]; simpl; try done.
  unfold has_pages at 1.
  destruct (info_pageCount info) as [pages|] eqn:Hpc.
  - destruct (Z.eqb_spec pages 0) as [->|Hnz].
    + intros H. destruct (IH H) as (i & info' & p & ?). by exists (S i), info', p.
    + intros [= <-]. by exists 0, info, pages.
  - intros H. destruct (IH H) as (i & info' & p & ?). by exists (S i), info', p.
Qed.

Lemma try_body_return (r : response) (s : string) :
  try_body r = Return s →
  ∃ items i info pages,
    r = Data (Some items) ∧ i < 3 ∧ items !! i = Some (Item info)
    ∧ info_pageCount info = Some pages ∧ pages ≠ 0%Z
    ∧ s = found_msg info pages.
Proof.
  destruct r as [|[items|]]; simpl; try done.
  intros H. apply inspect_items_return in H
    as (i & info & pages & Hi & Hpc & Hnz & Hs).
  apply lookup_take_Some in Hi as [Hi Hlt].
  by exists items, i, info, pages.
Qed.

(** One query: the effects are an initial part of its schedule. *)
Lemma retry_spec (q : string) (calls : nat) :
  ∃ r effs calls',
    retry src q (seq 0 max_retries) calls = (r, effs, calls')
    ∧ effs `prefix_of` schedule q
    ∧ (∀ s, r = Some s → ∃ n, try_body (src n q) = Return s)
    ∧ ((∀ n, src n q = Failure) → r = None ∧ effs = schedule q).
Proof.
  unfold max_retries, schedule. simpl.
  destruct (try_body (src calls q)) as [s0| |] eqn:H0.
  { eexists _, _, _. split; [done |]. split; [by eexists |]. split.
    - intros s [= <-]. by eexists.
    - intros Hf. by rewrite Hf in H0. }
  { eexists _, _, _. split; [done |]. split; [by eexists |]. split.
    - done.
    - intros Hf. by rewrite Hf in H0. }
  destruct (try_body (src (S calls) q)) as [s1| |] eqn:H1.
  { eexists _, _, _. split; [done |]. split; [by eexists |]. split.
    - intros s [= <-]. by eexists.
    - intros Hf. by rewrite Hf in H1. }
  { eexists _, _, _. split; [done |]. split; [by eexists |]. split.
    - done.
    - intros Hf. by rewrite Hf in H1. }
  destruct (try_body (src (S (S calls)) q)) as [s2| |] eqn:H2.
  { eexists _, _, _. split; [done |]. split; [by eexists |]. split.
    - intros s [= <-]. by eexists.
    - intros Hf. by rewrite Hf in H2. }
  { eexists _, _, _. split; [done |]. split; [by eexists |]. split.
    - done.
    - intros Hf. by rewrite Hf in H2. }
  eexists _, _, _. split; [done |]. split; [by exists [] |]. split; done.
Qed.

(** All queries: the effects are, query by query, initial parts of the
    schedules. *)
Lemma lookup_all_spec (queries : list string) (calls : nat) :
  ∃ r parts,
    lookup_all src queries calls = (r, concat parts)
    ∧ length parts ≤ length queries
    ∧ (∀ i part, parts !! i = Some part →
         ∃ q, queries !! i = Some q ∧ part `prefix_of` schedule q)
    ∧ (∀ s, r = Some s → ∃ n q, q ∈ queries ∧ try_body (src n q) = Return s)
    ∧ ((∀ n q, src n q = Failure) → r = None ∧ parts = map schedule queries).
Proof.
  revert calls. induction queries as [|q queries IH]; intros calls.
  { exists None, []. simpl. repeat split; done. }
  destruct (retry_spec q calls) as (r & effs & calls' & Hretry & Hpre & Hret & Hfail).
  cbn [lookup_all]. rewrite Hretry. destruct r as [s|].
  - exists (Some s), [effs]. simpl. rewrite app_nil_r.
    split; [done |]. split; [lia |]. split; [| split].
    + intros [|i] part Hi; simpl in Hi; [| by rewrite lookup_nil in Hi].
      injection Hi as <-. by exists q.
    + intros s' [= <-]. destruct (Hret s eq_refl) as [n Hn].
      exists n, q. split; [apply elem_of_cons; by left | done].
    + intros Hf. by destruct (Hfail (λ n, Hf n q)).
  - destruct (IH calls') as (r' & parts & Hall & Hlen & Hparts & Hret' & Hfail').
    rewrite Hall. exists r', (effs :: parts). simpl.
    split; [done |]. split; [lia |]. split; [| split].
    + intros [|i] part Hi; simpl in Hi.
      * injection Hi as <-. by exists q.
      * by apply Hparts.
    + intros s Hs. destruct (Hret' s Hs) as (n & q' & Hq' & Hn).
      exists n, q'. split; [apply elem_of_cons; by right | done].
    + intros Hf. destruct (Hfail' Hf) as [-> ->].
      by destruct (Hfail (λ n, Hf n q)) as [_ ->].
Qed.

Lemma schedule_requests (q : string) (part : list effect) :
  part `prefix_of` schedule q → length (filter is_request part) ≤ 3.
Proof.
  intros [k Hk].
  assert (Hlen : length (filter is_request (schedule q)) = 3) by done.
  rewrite Hk, filter_app, length_app in Hlen. lia.
Qed.

Lemma parts_requests (queries : list string) (parts : list (list effect)) :
  length parts ≤ length queries →
  (∀ i part, parts !! i = Some part →
     ∃ q, queries !! i = Some q ∧ part `prefix_of` schedule q) →
  length (filter is_request (concat parts)) ≤ 3 * length queries.
Proof.
  revert queries. induction parts as [|part parts IH]; intros queries Hlen Hparts.
  { simpl. lia. }
  destruct queries as [|q queries]; simpl in Hlen; [lia |].
  simpl. rewrite filter_app, length_app.
  destruct (Hparts 0 part eq_refl) as (q' & _ & Hpre).
  apply schedule_requests in Hpre.
  assert (length (filter is_request (concat parts)) ≤ 3 * length queries).
  { apply IH; [lia |]. intros i p Hi. by apply (Hparts (S i)). }
  lia.
Qed.

End Lookup.

(** C10. Called with none of isbn, title and author provided (absent, or
    the empty string, which the code treats alike), [get_book_details]
    builds no query variant, makes no request and no pause, and returns the
    fixed failure string. *)
Theorem no_arguments_no_lookup
    (src : Books.source) (isbn title author : option string) :
  Books.truthy isbn = false →
  Books.truthy title = false →
  Books.truthy author = false →
  Books.build_queries isbn title author = []
  ∧ Books.get_book_details src isbn title author = (Books.failure_msg, []).
Proof.
  intros Hi Ht Ha.
  assert (Hq : Books.build_queries isbn title author = [])
    by (unfold Books.build_queries; by rewrite Hi, Ht, Ha).
  split; [done |].
  unfold Books.get_book_details. by rewrite Hq.
Qed.

Lemma no_arguments_no_lookup_witness :
  let busy : Books.source := λ _ _, Books.Data (Some []) in
  Books.build_queries None None None = []
  ∧ Books.get_book_details busy None None None = (Books.failure_msg, []).
Proof.
  intros busy.
  apply (no_arguments_no_lookup busy None None None); reflexivity.
Defined.

(** ** Scenarios *)

(** Empty history and empty state: recovery gives discovery, the discovery
    worker is invoked exactly once and the phase stays discovery. *)
Example scenario_fresh_session :
  let r := run_async_impl asking ∅ [] in
  invoked_agents (iterations r) = [DiscoveryAgent]
  ∧ ended r = WaitingForInput
  ∧ final_state r !! "current_phase" = Some (VStr "discovery").
Proof. by vm_compute. Qed.

(** A history that holds only the book_discovery confirmation: recovery
    gives scheduling and the loop invokes only the scheduling worker. *)
Example scenario_resume_after_discovery :
  let history :=
    [Event (Some "Hello! What would you like to read?");
     Event (Some "Task 'book_discovery' marked as complete. Advancing to Scheduling.")] in
  let r := run_async_impl asking ∅ history in
  Recovery.recover ∅ history !! "current_phase" = Some (VStr "scheduling")
  ∧ invoked_agents (iterations r) = [SchedulingAgent]
  ∧ ended r = WaitingForInput.
Proof. by vm_compute. Qed.

(** The scheduling worker signals schedule_creation: the engagement worker
    runs in the same interaction, signals its own task, and the loop stops
    on complete at its third iteration. *)
Example scenario_cascade :
  let st : state := {["current_phase" := VStr "scheduling"]} in
  let r := orchestration_loop diligent st in
  iterations r =
    [Invoked SchedulingAgent (VStr "scheduling") (Some (VStr "engagement"));
     Invoked EngagementAgent (VStr "engagement") (Some (VStr "complete"));
     SawComplete]
  ∧ ended r = WorkflowComplete
  ∧ final_state r !! "schedule_creation_completed" = Some (VBool true)
  ∧ final_state r !! "engagement_generation_completed" = Some (VBool true).
Proof. by vm_compute. Qed.

(** A source that fails once and then answers with two results, of which
    only the second has a page count. *)
Example scenario_found_on_second_attempt :
  let src : Books.source := λ n _,
    if (n <? 1)%nat then Books.Failure
    else Books.Data (Some
      [Books.Item (Books.VolumeInfo (Some "Dune") (Some ["Frank Herbert"]) None);
       Books.Item (Books.VolumeInfo (Some "Dune") (Some ["Frank Herbert"; "Brian Herbert"])
                     (Some 412%Z))]) in
  let r := Books.get_book_details src None (Some "Dune") None in
  r.1 = "Found Book: Dune by Frank Herbert, Brian Herbert. Total Pages: 412."
  ∧ length (filter Books.is_request r.2) = 2
  ∧ filter (λ e, negb (Books.is_request e)) r.2 = [Books.Sleep 1].
Proof. by vm_compute. Qed.

(** ** More on strings *)

Lemma string_app_cons (c : Ascii.ascii) (a b : string) :
  String c a +:+ b = String c (a +:+ b).
Proof. reflexivity. Qed.

Lemma string_app_nil (b : string) : "" +:+ b = b.
Proof. reflexivity. Qed.

Lemma string_app_assoc (a b c : string) : (a +:+ b) +:+ c = a +:+ (b +:+ c).
Proof.
  induction a as [|x a IH]; [done |].
  rewrite !string_app_cons. by f_equal.
Qed.

Lemma string_app_inv_tail (a b x : string) : a +:+ x = b +:+ x → a = b.
Proof.
  revert b. induction a as [|c a IH]; intros [|d b] H.
  - done.
  - apply (f_equal String.length) in H.
    rewrite !length_string_app in H. simpl in H. lia.
  - apply (f_equal String.length) in H.
    rewrite !length_string_app in H. simpl in H. lia.
  - rewrite !string_app_cons in H. injection H as -> H. by rewrite (IH b H).
Qed.


Lemma prefix_app (a b : string) : String.prefix a (a +:+ b) = true.
Proof.
  induction a as [|c a IH]; [by destruct b |].
  rewrite string_app_cons. simpl. by destruct (Ascii.ascii_dec c c).
Qed.

Lemma contains_prefix (a b : string) : contains a (a +:+ b) = true.
Proof.
  destruct (a +:+ b) as [|c s] eqn:E; cbn [contains];
    rewrite <- E, prefix_app; done.
Qed.

Lemma contains_app_l (needle before hay : string) :
  contains needle hay = true → contains needle (before +:+ hay) = true.
Proof.
  intros H. induction before as [|c before IH]; [done |].
  rewrite string_app_cons. cbn [contains]. rewrite IH. apply orb_true_r.
Qed.

(** Distinct task names have distinct flag keys. *)
Lemma flag_key_inj (t t' : string) :
  t +:+ "_completed" = t' +:+ "_completed" → t = t'.
Proof. apply string_app_inv_tail. Qed.

(** ** The completion signal over several calls *)

Lemma signal_each_cons (st : state) (t : string) (rest : list string) :
  signal_each st (t :: rest) =
  ((signal_each (Signal.mark_task_complete st t "").1 rest).1,
   Event (Some (Signal.mark_task_complete st t "").2)
     :: (signal_each (Signal.mark_task_complete st t "").1 rest).2).
Proof.
  cbn [signal_each]. destruct (Signal.mark_task_complete st t "") as [st1 msg].
  cbn [fst snd]. by destruct (signal_each st1 rest).
Qed.

Lemma mark_lookup_other (st : state) (t summary key : string) :
  key ≠ "current_phase" → key ≠ t +:+ "_completed" →
  (Signal.mark_task_complete st t summary).1 !! key = st !! key.
Proof.
  intros Hcp Hflag. rewrite mark_task_complete_unfold. cbn [fst].
  by rewrite !lookup_insert_ne.
Qed.

Lemma mark_lookup_flag (st : state) (t summary : string) :
  (Signal.mark_task_complete st t summary).1 !! (t +:+ "_completed")
  = Some (VBool true).
Proof.
  rewrite mark_task_complete_unfold. cbn [fst].
  rewrite lookup_insert_ne
    by (intros H; symmetry in H; by apply flag_key_not_phase in H).
  apply lookup_insert_eq.
Qed.

(** X1. After any sequence of completion signals, the flag of a task name
    is [True] when the signal was invoked with that name at least once, and
    is what it was before when it never was: no call sets the flag of
    another name, and no call clears a flag. *)
Theorem flag_set_iff_signalled (st : state) (tasks : list string) (t : string) :
  let st' := (signal_each st tasks).1 in
  (t ∈ tasks → st' !! (t +:+ "_completed") = Some (VBool true))
  ∧ (t ∉ tasks → st' !! (t +:+ "_completed") = st !! (t +:+ "_completed")).
Proof.
  cbv zeta. revert st. induction tasks as [|u tasks IH]; intros st.
  { split; [by intros ?%elem_of_nil | done]. }
  rewrite signal_each_cons. cbn [fst].
  destruct (IH (Signal.mark_task_complete st u "").1) as [IHin IHout].
  split.
  - intros Hin. destruct (decide (t ∈ tasks)) as [Ht|Ht]; [by apply IHin |].
    rewrite IHout by done.
    apply elem_of_cons in Hin as [->|Hin]; [apply mark_lookup_flag | done].
  - intros Hout. apply not_elem_of_cons in Hout as [Hne Hout].
    rewrite IHout by done. apply mark_lookup_other.
    + apply flag_key_not_phase.
    + intros H. by apply flag_key_inj in H.
Qed.

Lemma flag_set_iff_signalled_witness :
  let st' := (signal_each ∅ ["book_discovery"; "small_talk"]).1 in
  st' !! "book_discovery_completed" = Some (VBool true)
  ∧ st' !! "schedule_creation_completed" = None.
Proof.
  intros st'. split.
  - apply (flag_set_iff_signalled ∅ ["book_discovery"; "small_talk"] "book_discovery").
    apply elem_of_cons. by left.
  - destruct (flag_set_iff_signalled ∅ ["book_discovery"; "small_talk"]
                "schedule_creation") as [_ Hout].
    refine (eq_trans (Hout _) (lookup_empty _)).
    rewrite !elem_of_cons, elem_of_nil. by intros [?|[?|?]].
Defined.

(** X2. A sequence of completion signals writes nothing but [current_phase]
    and the flags of the names it was invoked with: every other key of the
    session state, a worker's output key for instance, keeps its value or
    its absence. *)
Theorem signals_leave_other_keys (st : state) (tasks : list string) (key : string) :
  key ≠ "current_phase" →
  (∀ t, t ∈ tasks → key ≠ t +:+ "_completed") →
  (signal_each st tasks).1 !! key = st !! key.
Proof.
  intros Hcp. revert st. induction tasks as [|u tasks IH]; intros st Hflags.
  { done. }
  rewrite signal_each_cons. cbn [fst].
  rewrite IH by (intros t Ht; apply Hflags, elem_of_cons; by right).
  apply mark_lookup_other; [done |]. apply Hflags, elem_of_cons. by left.
Qed.

Lemma signals_leave_other_keys_witness :
  let st : state := {["book_identified" := VStr "Dune by Frank Herbert"]} in
  (signal_each st ["book_discovery"; "schedule_creation"]).1 !! "book_identified"
  = Some (VStr "Dune by Frank Herbert").
Proof.
  intros st.
  rewrite (signals_leave_other_keys st ["book_discovery"; "schedule_creation"]
             "book_identified").
  - by vm_compute.
  - done.
  - intros t Ht. rewrite !elem_of_cons, elem_of_nil in Ht.
    destruct Ht as [->|[->|[]]]; done.
Defined.

(** X3. The completion signal is idempotent: invoking it a second time with
    the same task name, right after the first, changes nothing in the
    session state and returns the same confirmation. *)
Theorem completion_signal_idempotent (st : state) (t s1 s2 : string) :
  Signal.mark_task_complete (Signal.mark_task_complete st t s1).1 t s2
  = Signal.mark_task_complete st t s1.
Proof.
  rewrite (mark_task_complete_unfold (Signal.mark_task_complete st t s1).1).
  rewrite (mark_task_complete_unfold st t s1). cbn [fst].
  set (cur := state_get "current_phase" (VStr "discovery") st).
  assert (Hget : state_get "current_phase" (VStr "discovery")
            (<["current_phase" := (Signal.transition t cur).1]>
               (<[t +:+ "_completed" := VBool true]> st))
          = (Signal.transition t cur).1)
    by (unfold state_get; by rewrite lookup_insert_eq).
  rewrite Hget.
  assert (Htr : Signal.transition t (Signal.transition t cur).1
                = Signal.transition t cur).
  { unfold Signal.transition.
    by destruct (String.eqb t "book_discovery"),
                (String.eqb t "schedule_creation"),
                (String.eqb t "engagement_generation"). }
  rewrite Htr. f_equal.
  apply map_eq. intros key.
  destruct (decide (key = "current_phase")) as [->|Hcp].
  { by rewrite !lookup_insert_eq. }
  rewrite !(lookup_insert_ne _ "current_phase") by done.
  destruct (decide (key = t +:+ "_completed")) as [->|Hfl].
  { rewrite lookup_insert_eq.
    rewrite lookup_insert_eq. done. }
  rewrite (lookup_insert_ne _ (t +:+ "_completed")) by done.
  by rewrite !lookup_insert_ne by done.
Qed.

Lemma completes_known (t : string) :
  Signal.known_task t ↔ is_Some (completes t).
Proof.
  unfold completes, Signal.known_task.
  destruct (String.eqb_spec t "book_discovery");
    [split; [by eexists | by left] |].
  destruct (String.eqb_spec t "schedule_creation");
    [split; [by eexists | by right; left] |].
  destruct (String.eqb_spec t "engagement_generation");
    [split; [by eexists | by right; right] |].
  split; [by intros [?|[?|?]] | by intros [? ?]].
Qed.

Lemma transition_completes (t : string) (cur : value) (p : phase) :
  completes t = Some p → (Signal.transition t cur).1 = VStr (phase_name p).
Proof.
  unfold completes, Signal.transition.
  destruct (String.eqb t "book_discovery"); [by intros [= <-] |].
  destruct (String.eqb t "schedule_creation"); [by intros [= <-] |].
  destruct (String.eqb t "engagement_generation"); [by intros [= <-] | done].
Qed.

Lemma mark_phase (st : state) (t summary : string) :
  (Signal.mark_task_complete st t summary).1 !! "current_phase"
  = Some (Signal.transition t
            (state_get "current_phase" (VStr "discovery") st)).1.
Proof. rewrite mark_task_complete_unfold. cbn [fst]. apply lookup_insert_eq. Qed.

(** X4. Every confirmation the completion signal returns, for any task name
    and state, starts with the text "Task '<name>' marked as complete"; for
    the three fixed names that text is the marker recovery searches the
    history for. *)
Theorem confirmation_carries_marker (st : state) (t summary : string) :
  let msg := (Signal.mark_task_complete st t summary).2 in
  String.prefix (marker_text t) msg = true
  ∧ contains (marker_text t) msg = true
  ∧ marker_text "book_discovery" = Recovery.discovery_marker
  ∧ marker_text "schedule_creation" = Recovery.scheduling_marker
  ∧ marker_text "engagement_generation" = Recovery.engagement_marker.
Proof.
  cbv zeta. rewrite mark_task_complete_unfold. cbn [snd].
  set (tm := (Signal.transition t _).2).
  assert (Hmsg : "Task '" +:+ t +:+ "' marked as complete. " +:+ tm
                 = marker_text t +:+ (". " +:+ tm)).
  { unfold marker_text. rewrite !string_app_assoc. reflexivity. }
  rewrite Hmsg. split; [apply prefix_app |]. split; [apply contains_prefix |].
  done.
Qed.

(** One signal leaves a phase of the enumeration when it found one, or none. *)
Lemma mark_keeps_recognised (st : state) (t summary : string) :
  st !! "current_phase" = None
  ∨ (∃ p, st !! "current_phase" = Some (VStr (phase_name p))) →
  ∃ p, (Signal.mark_task_complete st t summary).1 !! "current_phase"
       = Some (VStr (phase_name p)).
Proof.
  intros Hst. rewrite mark_phase.
  destruct (completes t) as [p|] eqn:Hc.
  { exists p. by rewrite (transition_completes t _ p). }
  assert (Hn : ¬ Signal.known_task t)
    by (rewrite completes_known, Hc; by intros [? ?]).
  rewrite transition_unknown by done. cbn [fst]. unfold state_get.
  destruct Hst as [-> | [p ->]]; [by exists Discovery | by exists p].
Qed.

(** X5. The completion signal keeps the phase inside the enumeration: from
    a session state whose [current_phase] is absent or one of the four phase
    names, any non-empty sequence of signals, with known or unknown task
    names, leaves [current_phase] set to one of the four names. *)
Theorem signals_keep_phase_recognised (st : state) (tasks : list string) :
  tasks ≠ [] →
  st !! "current_phase" = None
  ∨ (∃ p, st !! "current_phase" = Some (VStr (phase_name p))) →
  ∃ p, (signal_each st tasks).1 !! "current_phase" = Some (VStr (phase_name p)).
Proof.
  revert st. induction tasks as [|t tasks IH]; intros st Hne Hst; [done |].
  rewrite signal_each_cons. cbn [fst].
  pose proof (mark_keeps_recognised st t "" Hst) as Hone.
  destruct tasks as [|u tasks]; [exact Hone |].
  apply IH; [done | by right].
Qed.

Lemma signals_keep_phase_recognised_witness :
  ∃ p, (signal_each ∅ ["small_talk"; "schedule_creation"; "weather"]).1
         !! "current_phase" = Some (VStr (phase_name p)).
Proof.
  apply (signals_keep_phase_recognised ∅
           ["small_talk"; "schedule_creation"; "weather"]).
  - discriminate.
  - left. apply lookup_empty.
Defined.

(** ** Recovery from the confirmations of the signals *)

Lemma live_phase_last (st : state) (tasks : list string) (t : string) (p : phase) :
  last tasks = Some t → completes t = Some p →
  (signal_each st tasks).1 !! "current_phase" = Some (VStr (phase_name p)).
Proof.
  revert st. induction tasks as [|u tasks IH]; intros st Hlast Hc; [done |].
  rewrite signal_each_cons. cbn [fst].
  destruct tasks as [|v tasks].
  - injection Hlast as ->. cbn [signal_each fst].
    by rewrite mark_phase, (transition_completes t _ p).
  - by apply IH.
Qed.

Lemma mentions_confirmation (st : state) (t summary : string) (p : phase) :
  completes t = Some p →
  let e := Event (Some (Signal.mark_task_complete st t summary).2) in
  mentions Recovery.discovery_marker e = bool_decide (p = Scheduling)
  ∧ mentions Recovery.scheduling_marker e = bool_decide (p = Engagement)
  ∧ mentions Recovery.engagement_marker e = bool_decide (p = Complete).
Proof.
  intros Hc. cbv zeta. rewrite mark_task_complete_unfold. cbn [snd].
  revert Hc. unfold completes.
  destruct (String.eqb_spec t "book_discovery") as [->|_];
    [intros [= <-]; by vm_compute |].
  destruct (String.eqb_spec t "schedule_creation") as [->|_];
    [intros [= <-]; by vm_compute |].
  destruct (String.eqb_spec t "engagement_generation") as [->|_];
    [intros [= <-]; by vm_compute | done].
Qed.

Lemma existsb_completes (tasks : list string) (r : phase) :
  existsb (λ t, bool_decide (completes t = Some r)) tasks = true
  ↔ ∃ t, t ∈ tasks ∧ completes t = Some r.
Proof.
  rewrite existsb_exists. split.
  - intros (t & Hin & Hd). exists t. split; [by apply list_elem_of_In |].
    by apply bool_decide_eq_true in Hd.
  - intros (t & Hin & Hd). exists t. split; [by apply list_elem_of_In |].
    by apply bool_decide_eq_true.
Qed.

Lemma scan_confirmations (st : state) (tasks : list string) :
  Forall Signal.known_task tasks →
  let history := (signal_each st tasks).2 in
  existsb (mentions Recovery.discovery_marker) history
  = existsb (λ t, bool_decide (completes t = Some Scheduling)) tasks
  ∧ existsb (mentions Recovery.scheduling_marker) history
    = existsb (λ t, bool_decide (completes t = Some Engagement)) tasks
  ∧ existsb (mentions Recovery.engagement_marker) history
    = existsb (λ t, bool_decide (completes t = Some Complete)) tasks.
Proof.
  cbv zeta. revert st. induction tasks as [|t tasks IH]; intros st Hk; [done |].
  apply Forall_cons in Hk as [Ht Hk].
  apply completes_known in Ht as [p Hp].
  rewrite signal_each_cons. cbn [snd existsb].
  destruct (IH (Signal.mark_task_complete st t "").1 Hk) as (-> & -> & ->).
  destruct (mentions_confirmation st t "" p Hp) as (-> & -> & ->).
  rewrite Hp. repeat split; f_equal; apply bool_decide_ext; split; congruence.
Qed.

(** X6. When a session's history holds the confirmations of a sequence of
    completion signals with known task names, the live phase is the one the
    last signal leads to, and the phase recovery restores from that history
    is the most advanced one any of the signals leads to: recovery is never
    behind the live phase, and equals it whenever the last signal is the
    most advanced one. *)
Theorem recovery_follows_signals
    (st : state) (tasks : list string) (t_last : string) :
  Forall Signal.known_task tasks →
  last tasks = Some t_last →
  let live := (signal_each st tasks).1 in
  let history := (signal_each st tasks).2 in
  ∃ p q,
    live !! "current_phase" = Some (VStr (phase_name p))
    ∧ completes t_last = Some p
    ∧ Recovery.recover ∅ history !! "current_phase" = Some (VStr (phase_name q))
    ∧ (∃ t, t ∈ tasks ∧ completes t = Some q)
    ∧ (∀ t r, t ∈ tasks → completes t = Some r → rank r ≤ rank q)
    ∧ rank p ≤ rank q.
Proof.
  intros Hk Hlast live history.
  assert (Hin : t_last ∈ tasks).
  { apply last_Some in Hlast as [l' ->]. apply elem_of_app. right.
    apply elem_of_cons. by left. }
  assert (Hkl : Signal.known_task t_last)
    by (rewrite Forall_forall in Hk; by apply Hk).
  apply completes_known in Hkl as [p Hp].
  destruct (scan_confirmations st tasks Hk) as (Hd & Hs & He).
  fold history in Hd, Hs, He.
  assert (Hrec : Recovery.recover ∅ history !! "current_phase"
                 = Some (VStr (Recovery.restored_phase (Recovery.scan history)))).
  { unfold Recovery.recover. rewrite lookup_empty. apply lookup_insert_eq. }
  rewrite Hrec. unfold Recovery.restored_phase.
  destruct (scan_flags history) as (-> & -> & ->).
  rewrite Hd, Hs, He.
  pose proof (existsb_completes tasks Scheduling) as Xd.
  pose proof (existsb_completes tasks Engagement) as Xs.
  pose proof (existsb_completes tasks Complete) as Xe.
  assert (Hflag : ∀ t r, t ∈ tasks → completes t = Some r →
            existsb (λ t, bool_decide (completes t = Some r)) tasks = true).
  { intros t r Ht Hr. apply existsb_completes. by exists t. }
  assert (Hnd : ∀ t, completes t ≠ Some Discovery).
  { intros t. unfold completes. by repeat case_match. }
  pose proof (Hflag t_last p Hin Hp) as Hpflag.
  assert (Hall : ∀ t r, t ∈ tasks → completes t = Some r →
            r ≠ Discovery
            ∧ existsb (λ t, bool_decide (completes t = Some r)) tasks = true).
  { intros t r Ht Hr. split; [intros ->; by apply (Hnd t) | by apply (Hflag t)]. }
  assert (Hp0 : p ≠ Discovery) by (intros ->; by apply (Hnd t_last)).
  destruct (existsb (λ t, bool_decide (completes t = Some Complete)) tasks) eqn:Ee.
  { exists p, Complete. split; [by apply (live_phase_last st tasks t_last) |].
    repeat split; try done.
    - by apply Xe.
    - intros t r _ _. destruct r; simpl; lia.
    - destruct p; simpl; lia. }
  destruct (existsb (λ t, bool_decide (completes t = Some Engagement)) tasks) eqn:Es.
  { exists p, Engagement. split; [by apply (live_phase_last st tasks t_last) |].
    repeat split; try done.
    - by apply Xs.
    - intros t r Ht Hr. destruct (Hall t r Ht Hr) as [? Hf].
      destruct r; simpl; try lia. congruence.
    - destruct p; simpl; try lia. congruence. }
  destruct (existsb (λ t, bool_decide (completes t = Some Scheduling)) tasks) eqn:Ed.
  { exists p, Scheduling. split; [by apply (live_phase_last st tasks t_last) |].
    repeat split; try done.
    - by apply Xd.
    - intros t r Ht Hr. destruct (Hall t r Ht Hr) as [? Hf].
      destruct r; simpl; try lia; congruence.
    - destruct p; simpl; try lia; congruence. }
  exfalso. destruct p; congruence.
Qed.

Lemma recovery_follows_signals_witness :
  let tasks := ["book_discovery"; "schedule_creation"] in
  ∃ p q,
    (signal_each ∅ tasks).1 !! "current_phase" = Some (VStr (phase_name p))
    ∧ Recovery.recover ∅ (signal_each ∅ tasks).2 !! "current_phase"
      = Some (VStr (phase_name q))
    ∧ rank p ≤ rank q.
Proof.
  intros tasks.
  destruct (recovery_follows_signals ∅ tasks "schedule_creation")
    as (p & q & Hlive & _ & Hrec & _ & _ & Hle).
  - apply Forall_cons_2; [by left |].
    apply Forall_cons_2; [by right; left | apply Forall_nil_2].
  - reflexivity.
  - by exists p, q.
Defined.

(** ** Recovery: what it leaves behind *)

(** X7. Recovery always leaves [current_phase] set, to one of the four
    phase names when it had to restore it; it writes no other key; and once
    it has run, running it again on any history changes nothing. *)
Theorem recovery_runs_once (st : state) (events later : list event) :
  let st' := Recovery.recover st events in
  is_Some (st' !! "current_phase")
  ∧ (st !! "current_phase" = None →
     ∃ p, st' !! "current_phase" = Some (VStr (phase_name p)))
  ∧ (∀ key, key ≠ "current_phase" → st' !! key = st !! key)
  ∧ Recovery.recover st' later = st'.
Proof.
  cbv zeta.
  assert (Hname : ∃ p, Recovery.restored_phase (Recovery.scan events)
                       = phase_name p).
  { unfold Recovery.restored_phase.
    destruct (Recovery.engagement_done _); [by exists Complete |].
    destruct (Recovery.scheduling_done _); [by exists Engagement |].
    destruct (Recovery.discovery_done _);
      [by exists Scheduling | by exists Discovery]. }
  assert (Hset : is_Some (Recovery.recover st events !! "current_phase")).
  { unfold Recovery.recover.
    destruct (st !! "current_phase") eqn:E; [by rewrite E |].
    rewrite lookup_insert_eq. by eexists. }
  split; [done |]. split; [| split].
  - intros Hnone. destruct Hname as [p Hp]. exists p.
    unfold Recovery.recover. rewrite Hnone, lookup_insert_eq. by rewrite Hp.
  - intros key Hkey. unfold Recovery.recover.
    destruct (st !! "current_phase"); [done |]. by rewrite lookup_insert_ne.
  - destruct Hset as [v Hv]. unfold Recovery.recover at 1. by rewrite Hv.
Qed.

Lemma recovery_runs_once_witness :
  let st : state := {["book_identified" := VStr "Dune"]} in
  ∃ p, Recovery.recover st [] !! "current_phase" = Some (VStr (phase_name p)).
Proof.
  intros st.
  destruct (recovery_runs_once st [] []) as (_ & Hrestored & _).
  apply Hrestored. by vm_compute.
Defined.

(** X8. A longer history never restores an earlier phase: for a state
    without [current_phase], the phase recovered from a history extended by
    further events is at least as advanced as the one recovered from the
    history before the extension. *)
Theorem recovery_monotone_in_history (st : state) (events more : list event) :
  st !! "current_phase" = None →
  ∃ p q,
    Recovery.recover st events !! "current_phase" = Some (VStr (phase_name p))
    ∧ Recovery.recover st (events ++ more) !! "current_phase"
      = Some (VStr (phase_name q))
    ∧ rank p ≤ rank q.
Proof.
  intros Hnone. unfold Recovery.recover. rewrite Hnone, !lookup_insert_eq.
  unfold Recovery.restored_phase.
  destruct (scan_flags events) as (-> & -> & ->).
  destruct (scan_flags (events ++ more)) as (-> & -> & ->).
  rewrite !existsb_app.
  destruct (existsb (mentions Recovery.engagement_marker) events),
           (existsb (mentions Recovery.scheduling_marker) events),
           (existsb (mentions Recovery.discovery_marker) events),
           (existsb (mentions Recovery.engagement_marker) more),
           (existsb (mentions Recovery.scheduling_marker) more),
           (existsb (mentions Recovery.discovery_marker) more); simpl.
  all: first
    [ by (exists Complete, Complete; simpl; repeat split; lia)
    | by (exists Engagement, Complete; simpl; repeat split; lia)
    | by (exists Engagement, Engagement; simpl; repeat split; lia)
    | by (exists Scheduling, Complete; simpl; repeat split; lia)
    | by (exists Scheduling, Engagement; simpl; repeat split; lia)
    | by (exists Scheduling, Scheduling; simpl; repeat split; lia)
    | by (exists Discovery, Complete; simpl; repeat split; lia)
    | by (exists Discovery, Engagement; simpl; repeat split; lia)
    | by (exists Discovery, Scheduling; simpl; repeat split; lia)
    | by (exists Discovery, Discovery; simpl; repeat split; lia) ].
Qed.

Lemma recovery_monotone_in_history_witness :
  let before := [Event (Some "Task 'book_discovery' marked as complete. Advancing to Scheduling.")] in
  let later := [Event None; Event (Some "Task 'schedule_creation' marked as complete. Advancing to Engagement.")] in
  ∃ p q,
    Recovery.recover ∅ before !! "current_phase" = Some (VStr (phase_name p))
    ∧ Recovery.recover ∅ (before ++ later) !! "current_phase"
      = Some (VStr (phase_name q))
    ∧ rank p ≤ rank q.
Proof.
  intros before later.
  apply (recovery_monotone_in_history ∅ before later). apply lookup_empty.
Defined.

(** ** The router *)

(** X9. The router binds each worker to exactly one phase name: a value is
    routed to a worker exactly when it is the string naming that worker's
    phase, to the terminal case exactly when it is the string "complete",
    and is treated as unknown exactly when it is none of the four names,
    which includes every value that is not a string. *)
Theorem router_one_worker_per_phase (v : value) :
  (∀ a, route_phase v = ToAgent a ↔ v = VStr (phase_name (phase_of_agent a)))
  ∧ (route_phase v = Terminal ↔ v = VStr "complete")
  ∧ (route_phase v = UnknownPhase ↔ ¬ recognised v)
  ∧ (∀ b n, route_phase VNone = UnknownPhase
            ∧ route_phase (VBool b) = UnknownPhase
            ∧ route_phase (VInt n) = UnknownPhase).
Proof.
  split; [| split; [| split]].
  - intros a. split.
    + unfold route_phase, py_eq_str.
      repeat case_bool_decide; subst; intros [= <-]; done.
    + intros ->. apply route_phase_agent.
  - split.
    + unfold route_phase, py_eq_str.
      repeat case_bool_decide; subst; done.
    + by intros ->.
  - split; [| apply route_phase_unknown].
    intros Hr [p ->]. by destruct p.
  - done.
Qed.

(** ** The loop behind recovery *)

Lemma recover_is_Some (st : state) (events : list event) :
  is_Some (Recovery.recover st events !! "current_phase").
Proof.
  unfold Recovery.recover.
  destruct (st !! "current_phase") eqn:E; [by rewrite E |].
  rewrite lookup_insert_eq. by eexists.
Qed.

Lemma while_loop_first (w : worker) (n k : nat) (st : state) :
  is_Some (st !! "current_phase") →
  iterations (while_loop w (S n) k st) ≠ [].
Proof.
  intros [cur Hcur]. simpl. rewrite Hcur.
  destruct (route_phase cur); simpl; try done.
  destruct (w (S k) target_agent st) as [st' evs].
  destruct (st' !! "current_phase") as [aft|]; [| done].
  by destruct (bool_decide (aft ≠ cur)).
Qed.

(** X10. The loop on its own raises [KeyError] at once, before any worker
    runs, when [current_phase] is absent; behind recovery that cannot
    happen: for every session state and history [_run_async_impl] performs
    at least one iteration, and it ends without [KeyError] whenever no
    worker removes the key. *)
Theorem recovery_guards_the_loop
    (w : worker) (st : state) (events : list event) :
  (st !! "current_phase" = None →
   orchestration_loop w st = Run st [] [] RaisedKeyError)
  ∧ iterations (run_async_impl w st events) ≠ []
  ∧ ((∀ k a s, is_Some (s !! "current_phase") →
               is_Some ((w k a s).1 !! "current_phase")) →
     ended (run_async_impl w st events) ≠ RaisedKeyError).
Proof.
  split; [| split].
  - intros Hnone. unfold orchestration_loop, max_loops. simpl. by rewrite Hnone.
  - apply while_loop_first, recover_is_Some.
  - intros Hw. apply while_loop_key_error; [apply recover_is_Some | done].
Qed.

Lemma recovery_guards_the_loop_witness :
  orchestration_loop asking ∅ = Run ∅ [] [] RaisedKeyError
  ∧ ended (run_async_impl asking ∅ []) ≠ RaisedKeyError.
Proof.
  destruct (recovery_guards_the_loop asking ∅ []) as (Hbare & _ & Hguard).
  split.
  - apply Hbare, lookup_empty.
  - apply Hguard. intros k a s Hs. exact Hs.
Defined.

(** X11. An interaction on an unfinished workflow always reaches a worker:
    when [current_phase] holds anything but "complete", the loop invokes at
    least one worker, and the first one is the worker of the current phase,
    or the discovery worker when the value is not a phase name. *)
Theorem unfinished_workflow_reaches_a_worker
    (w : worker) (st : state) (v : value) :
  st !! "current_phase" = Some v →
  v ≠ VStr "complete" →
  ∃ a rest,
    invoked_agents (iterations (orchestration_loop w st)) = a :: rest
    ∧ (recognised v → v = VStr (phase_name (phase_of_agent a)))
    ∧ (¬ recognised v → a = DiscoveryAgent).
Proof.
  intros Hcur Hnc.
  assert (Hrun : ∀ n k s b, s !! "current_phase"
                   = Some (VStr (phase_name (phase_of_agent b))) →
            ∃ rest, invoked_agents (iterations (while_loop w (S n) k s))
                    = b :: rest).
  { intros n k s b Hs. simpl. rewrite Hs, route_phase_agent.
    destruct (w (S k) b s) as [s' evs].
    destruct (s' !! "current_phase") as [aft|]; [| by eexists].
    destruct (bool_decide (aft ≠ _)); simpl; by eexists. }
  destruct (route_phase v) as [a| |] eqn:Hroute.
  - assert (Hv : v = VStr (phase_name (phase_of_agent a))).
    { revert Hroute. unfold route_phase, py_eq_str.
      repeat case_bool_decide; subst; intros [= <-]; done. }
    subst v. destruct (Hrun 4 0 st a Hcur) as [rest Hrest].
    exists a, rest. split; [done |]. split; [done |].
    intros Hn. exfalso. apply Hn. by exists (phase_of_agent a).
  - exfalso. revert Hroute. unfold route_phase, py_eq_str.
    repeat case_bool_decide; subst; done.
  - assert (Hun : ¬ recognised v) by (intros [p ->]; by destruct p).
    destruct (Hrun 3 1 (<["current_phase" := VStr "discovery"]> st)
                DiscoveryAgent) as [rest Hrest];
      [apply lookup_insert_eq |].
    exists DiscoveryAgent, rest. split; [| done].
    unfold orchestration_loop, max_loops. cbn [while_loop].
    rewrite Hcur, Hroute. unfold continue_with. cbn [iterations].
    exact Hrest.
Qed.

Lemma unfinished_workflow_reaches_a_worker_witness :
  let st : state := {["current_phase" := VStr "engagement"]} in
  ∃ a rest, invoked_agents (iterations (orchestration_loop asking st)) = a :: rest
            ∧ VStr "engagement" = VStr (phase_name (phase_of_agent a)).
Proof.
  intros st.
  destruct (unfinished_workflow_reaches_a_worker asking st (VStr "engagement"))
    as (a & rest & Hinv & Hrec & _).
  - by vm_compute.
  - discriminate.
  - exists a, rest. split; [exact Hinv |]. apply Hrec. by exists Engagement.
Defined.

(** ** What the loop forwards and what it writes *)

Lemma forwarded_cons (produce : nat → agent → list event) (k : nat)
    (it : iteration) (its : list iteration) :
  forwarded produce k (it :: its) =
  match it with Invoked a _ _ => produce (S k) a | _ => [] end
  ++ forwarded produce (S k) its.
Proof.
  unfold forwarded. rewrite imap_cons. cbn [concat].
  rewrite Nat.add_0_r. f_equal. f_equal. apply imap_ext.
  intros i x _. simpl. destruct x; try done. f_equal. lia.
Qed.

Lemma while_loop_forwards (produce : nat → agent → list event)
    (w : worker) (n k : nat) (st : state) :
  (∀ j a s, (w j a s).2 = produce j a) →
  yielded (while_loop w n k st)
  = forwarded produce k (iterations (while_loop w n k st)).
Proof.
  intros Hw. revert k st. induction n as [|n IH]; intros k st; [done |].
  simpl. destruct (st !! "current_phase") as [cur|]; [| done].
  destruct (route_phase cur); simpl; [| done |].
  - pose proof (Hw (S k) target_agent st) as Hev.
    destruct (w (S k) target_agent st) as [st' evs]. simpl in Hev. subst evs.
    destruct (st' !! "current_phase") as [aft|]; simpl.
    + case_bool_decide; simpl.
      * rewrite forwarded_cons, IH. done.
      * rewrite forwarded_cons. by rewrite app_nil_r.
    + rewrite forwarded_cons. by rewrite app_nil_r.
  - rewrite forwarded_cons, IH. done.
Qed.

Lemma while_loop_yields_only (P : event → Prop)
    (w : worker) (n k : nat) (st : state) :
  (∀ j a s, Forall P (w j a s).2) →
  Forall P (yielded (while_loop w n k st)).
Proof.
  intros Hw. revert k st. induction n as [|n IH]; intros k st; [by constructor |].
  simpl. destruct (st !! "current_phase") as [cur|]; [| by constructor].
  destruct (route_phase cur); simpl; [| by constructor |].
  - pose proof (Hw (S k) target_agent st) as Hev.
    destruct (w (S k) target_agent st) as [st' evs]. simpl in Hev.
    destruct (st' !! "current_phase") as [aft|]; simpl; [| done].
    case_bool_decide; simpl; [| done].
    apply Forall_app. split; [done | apply IH].
  - apply IH.
Qed.

Lemma while_loop_silent (w : worker) (n k : nat) (st : state) :
  invoked_agents (iterations (while_loop w n k st)) = [] →
  yielded (while_loop w n k st) = [].
Proof.
  revert k st. induction n as [|n IH]; intros k st; [done |].
  simpl. destruct (st !! "current_phase") as [cur|]; [| done].
  destruct (route_phase cur); simpl; [| done | apply IH].
  destruct (w (S k) target_agent st) as [st' evs].
  destruct (st' !! "current_phase") as [aft|]; simpl; [| done].
  by case_bool_decide.
Qed.

(** X12. The loop forwards the workers' events and adds none of its own:
    the events it yields are those of the invoked workers, in the order of
    the invocations (the events of turn [i] before those of turn [i+1]), and
    iterations that invoke no worker contribute nothing. *)
Theorem events_forwarded_in_order (w : worker) (st : state) :
  (∀ produce, (∀ j a s, (w j a s).2 = produce j a) →
     yielded (orchestration_loop w st)
     = forwarded produce 0 (iterations (orchestration_loop w st)))
  ∧ (∀ P : event → Prop, (∀ j a s, Forall P (w j a s).2) →
     Forall P (yielded (orchestration_loop w st)))
  ∧ (invoked_agents (iterations (orchestration_loop w st)) = [] →
     yielded (orchestration_loop w st) = []).
Proof.
  split; [| split].
  - intros produce Hw. by apply while_loop_forwards.
  - intros P Hw. by apply while_loop_yields_only.
  - apply while_loop_silent.
Qed.

Lemma events_forwarded_in_order_witness :
  let st : state := {["current_phase" := VStr "scheduling"]} in
  yielded (orchestration_loop asking st)
  = [Event (Some "How many minutes per day can you dedicate to reading?")].
Proof.
  intros st.
  destruct (events_forwarded_in_order asking st) as (Hexact & _ & _).
  rewrite (Hexact (λ _ _, [Event (Some "How many minutes per day can you dedicate to reading?")]))
    by done.
  by vm_compute.
Defined.

(** X13. The loop itself writes no key but [current_phase]: a key that no
    worker changes holds at the end of the run what it held at the start,
    whatever the loop did in between. *)
Theorem loop_writes_only_the_phase (w : worker) (st : state) (key : string) :
  key ≠ "current_phase" →
  (∀ j a s, (w j a s).1 !! key = s !! key) →
  final_state (orchestration_loop w st) !! key = st !! key.
Proof.
  intros Hkey Hw. unfold orchestration_loop.
  generalize max_loops 0. intros n. revert st.
  induction n as [|n IH]; intros st k; [done |].
  simpl. destruct (st !! "current_phase") as [cur|]; [| done].
  destruct (route_phase cur); simpl; [| done |].
  - pose proof (Hw (S k) target_agent st) as Hsame.
    destruct (w (S k) target_agent st) as [st' evs]. simpl in Hsame.
    destruct (st' !! "current_phase") as [aft|]; simpl; [| done].
    case_bool_decide; simpl; [| done]. by rewrite IH.
  - rewrite IH. by rewrite lookup_insert_ne.
Qed.

Lemma loop_writes_only_the_phase_witness :
  let st : state := {["current_phase" := VStr "reading";
                      "book_identified" := VStr "Dune"]} in
  final_state (orchestration_loop asking st) !! "book_identified"
  = Some (VStr "Dune").
Proof.
  intros st.
  rewrite (loop_writes_only_the_phase asking st "book_identified");
    [by vm_compute | done | done].
Defined.

(** X14. A reset is never repeated: an iteration that resets an unknown
    phase value is followed, when an iteration is left, by the invocation of
    the discovery worker on phase discovery; only as the fifth iteration is
    it the last thing the loop does. *)
Theorem reset_is_followed_by_discovery
    (w : worker) (st : state) (i : nat) (v : value) :
  iterations (orchestration_loop w st) !! i = Some (ResetUnknown v) →
  ¬ recognised v
  ∧ (S i = max_loops
     ∨ ∃ aft, iterations (orchestration_loop w st) !! S i
              = Some (Invoked DiscoveryAgent (VStr "discovery") aft)).
Proof.
  unfold orchestration_loop. generalize max_loops 0. intros n k.
  revert k st i. induction n as [|n IH]; intros k st i; [done |].
  simpl. destruct (st !! "current_phase") as [cur|] eqn:Hcur; [| done].
  destruct (route_phase cur) eqn:Hroute; simpl.
  - destruct (w (S k) target_agent st) as [st' evs].
    destruct (st' !! "current_phase") as [aft|]; simpl.
    + case_bool_decide; simpl.
      * destruct i as [|i]; [done |]. simpl. intros Hi.
        destruct (IH (S k) st' i Hi) as [Hun Hnext]. split; [done |].
        destruct Hnext as [->|Hnext]; [by left | by right].
      * by destruct i as [|[|i]].
    + by destruct i as [|[|i]].
  - by destruct i as [|[|i]].
  - destruct i as [|i]; simpl.
    + intros [= <-]. split.
      { intros [p ->]. by destruct p. }
      destruct n as [|n]; [by left | right].
      simpl. rewrite lookup_insert_eq. simpl.
      destruct (w (S (S k)) DiscoveryAgent _) as [st' evs].
      destruct (st' !! "current_phase") as [aft|]; [| by eexists].
      destruct (bool_decide (aft ≠ _)); simpl; by eexists.
    + intros Hi. destruct (IH (S k) _ i Hi) as [Hun Hnext]. split; [done |].
      destruct Hnext as [->|Hnext]; [by left | by right].
Qed.

Lemma reset_is_followed_by_discovery_witness :
  let st : state := {["current_phase" := VInt 3]} in
  ∃ aft, iterations (orchestration_loop asking st) !! 1
         = Some (Invoked DiscoveryAgent (VStr "discovery") aft).
Proof.
  intros st.
  destruct (reset_is_followed_by_discovery asking st 0 (VInt 3))
    as [_ [Hlast|Hnext]].
  - by vm_compute.
  - discriminate Hlast.
  - exact Hnext.
Defined.

(** ** Workers that signal at once *)

Lemma diligent_run (k : nat) (a : agent) (st : state) :
  diligent k a st =
  ((Signal.mark_task_complete st (task_of a) "").1,
   [Event (Some (Signal.mark_task_complete st (task_of a) "").2)]).
Proof. unfold diligent. by destruct (Signal.mark_task_complete _ _ _). Qed.

Lemma diligent_step (n k : nat) (a : agent) (st : state) :
  st !! "current_phase" = Some (VStr (phase_name (phase_of_agent a))) →
  ∃ p, completes (task_of a) = Some p
    ∧ rank p = S (rank (phase_of_agent a))
    ∧ (Signal.mark_task_complete st (task_of a) "").1 !! "current_phase"
      = Some (VStr (phase_name p))
    ∧ while_loop diligent (S n) k st =
      continue_with
        (Invoked a (VStr (phase_name (phase_of_agent a)))
           (Some (VStr (phase_name p))))
        [Event (Some (Signal.mark_task_complete st (task_of a) "").2)]
        (while_loop diligent n (S k)
           (Signal.mark_task_complete st (task_of a) "").1).
Proof.
  intros Hcur.
  assert (Hp : ∃ p, completes (task_of a) = Some p
                    ∧ rank p = S (rank (phase_of_agent a)))
    by (destruct a; by eexists).
  destruct Hp as (p & Hp & Hrank). exists p. split; [done |]. split; [done |].
  assert (Hnext : (Signal.mark_task_complete st (task_of a) "").1
                    !! "current_phase" = Some (VStr (phase_name p)))
    by (by rewrite mark_phase, (transition_completes _ _ p)).
  split; [done |].
  rewrite (while_loop_invoke diligent n k st _ a _ _ Hcur
             (diligent_run (S k) a st) Hnext).
  rewrite bool_decide_eq_true_2; [done |].
  intros [= H]. apply phase_name_inj in H. subst p. lia.
Qed.

Section Continue.

Variables (a : agent) (before : value) (aft : option value).
Variables (evs : list event) (r : run).

Let r' := continue_with (Invoked a before aft) evs r.

Lemma continue_ended : ended r' = ended r.
Proof. done. Qed.

Lemma continue_agents :
  invoked_agents (iterations r') = a :: invoked_agents (iterations r).
Proof. done. Qed.

Lemma continue_length : length (iterations r') = S (length (iterations r)).
Proof. done. Qed.

Lemma continue_final : final_state r' = final_state r.
Proof. done. Qed.

Lemma continue_yielded : yielded r' = evs ++ yielded r.
Proof. done. Qed.

End Continue.

(** X15. When every worker signals the completion of its own task in its
    turn, one interaction carries the workflow to its end from any phase:
    the loop invokes the workers from the current phase on, in order, ends
    on complete within its bound, and leaves the state and the events that
    the corresponding sequence of completion signals produces. *)
Theorem diligent_workers_finish (st : state) (p : phase) :
  st !! "current_phase" = Some (VStr (phase_name p)) →
  let r := orchestration_loop diligent st in
  let signals := signal_each st (map task_of (agents_from p)) in
  ended r = WorkflowComplete
  ∧ invoked_agents (iterations r) = agents_from p
  ∧ length (iterations r) = S (length (agents_from p))
  ∧ final_state r = signals.1
  ∧ yielded r = signals.2
  ∧ final_state r !! "current_phase" = Some (VStr "complete").
Proof.
  intros Hcur.
  assert (Hend : ∀ n k s, s !! "current_phase" = Some (VStr "complete") →
            while_loop diligent (S n) k s
            = Run s [] [SawComplete] WorkflowComplete).
  { intros n k s Hs. simpl. by rewrite Hs. }
  assert (Heng : ∀ n k s, s !! "current_phase" = Some (VStr "engagement") →
            let r := while_loop diligent (S (S n)) k s in
            let signals := signal_each s (map task_of (agents_from Engagement)) in
            ended r = WorkflowComplete
            ∧ invoked_agents (iterations r) = agents_from Engagement
            ∧ length (iterations r) = 2
            ∧ final_state r = signals.1 ∧ yielded r = signals.2
            ∧ final_state r !! "current_phase" = Some (VStr "complete")).
  { intros n k s Hs. cbv zeta.
    destruct (diligent_step (S n) k EngagementAgent s Hs)
      as (q & Hq & _ & Hnext & ->).
    injection Hq as <-. rewrite (Hend n (S k) _ Hnext).
    cbn [map agents_from]. rewrite signal_each_cons. by cbn. }
  assert (Hsch : ∀ n k s, s !! "current_phase" = Some (VStr "scheduling") →
            let r := while_loop diligent (S (S (S n))) k s in
            let signals := signal_each s (map task_of (agents_from Scheduling)) in
            ended r = WorkflowComplete
            ∧ invoked_agents (iterations r) = agents_from Scheduling
            ∧ length (iterations r) = 3
            ∧ final_state r = signals.1 ∧ yielded r = signals.2
            ∧ final_state r !! "current_phase" = Some (VStr "complete")).
  { intros n k s Hs. cbv zeta.
    destruct (diligent_step (S (S n)) k SchedulingAgent s Hs)
      as (q & Hq & _ & Hnext & ->).
    injection Hq as <-.
    destruct (Heng n (S k) _ Hnext) as (He & Hi & Hl & Hf & Hy & Hc).
    cbn [map agents_from]. rewrite signal_each_cons.
    cbn [map agents_from] in Hf, Hy.
    rewrite continue_ended, continue_agents, continue_length,
      !continue_final, continue_yielded, He, Hi, Hl, Hy, Hc. by rewrite Hf. }
  destruct p; cbv zeta.
  - destruct (diligent_step 4 0 DiscoveryAgent st Hcur)
      as (q & Hq & _ & Hnext & Hrun).
    injection Hq as <-. unfold orchestration_loop, max_loops. rewrite Hrun.
    destruct (Hsch 1 1 _ Hnext) as (He & Hi & Hl & Hf & Hy & Hc).
    cbn [map agents_from]. rewrite signal_each_cons.
    cbn [map agents_from] in Hf, Hy.
    rewrite continue_ended, continue_agents, continue_length,
      !continue_final, continue_yielded, He, Hi, Hl, Hy, Hc. by rewrite Hf.
  - apply (Hsch 2 0 st Hcur).
  - apply (Heng 3 0 st Hcur).
  - unfold orchestration_loop, max_loops. rewrite (Hend 4 0 st Hcur). by cbn.
Qed.

Lemma diligent_workers_finish_witness :
  let st : state := {["current_phase" := VStr "discovery"]} in
  invoked_agents (iterations (orchestration_loop diligent st))
  = [DiscoveryAgent; SchedulingAgent; EngagementAgent]
  ∧ ended (orchestration_loop diligent st) = WorkflowComplete.
Proof.
  intros st.
  destruct (diligent_workers_finish st Discovery) as (He & Hi & _).
  - by vm_compute.
  - split; [exact Hi | exact He].
Defined.

(** ** The metadata lookup: cost and shape of a call *)

Section LookupCost.

Import Books.

Variable src : source.

Lemma sleep_total_app (a b : list effect) :
  sleep_total (a ++ b) = sleep_total a + sleep_total b.
Proof. apply sum_list_with_app. Qed.

Lemma schedule_sleeps (q : string) (part : list effect) :
  part `prefix_of` schedule q → sleep_total part ≤ 3.
Proof.
  intros [k Hk].
  assert (Hs : sleep_total (schedule q) = 3) by done.
  rewrite Hk, sleep_total_app in Hs. lia.
Qed.

Lemma parts_sleeps (queries : list string) (parts : list (list effect)) :
  length parts ≤ length queries →
  (∀ i part, parts !! i = Some part →
     ∃ q, queries !! i = Some q ∧ part `prefix_of` schedule q) →
  sleep_total (concat parts) ≤ 3 * length queries.
Proof.
  revert queries. induction parts as [|part parts IH]; intros queries Hlen Hparts.
  { unfold sleep_total. simpl. lia. }
  destruct queries as [|q queries]; simpl in Hlen; [lia |].
  cbn [concat]. rewrite sleep_total_app.
  destruct (Hparts 0 part eq_refl) as (q' & _ & Hpre).
  apply schedule_sleeps in Hpre.
  assert (sleep_total (concat parts) ≤ 3 * length queries).
  { apply IH; [lia |]. intros i p Hi. by apply (Hparts (S i)). }
  simpl. lia.
Qed.

Lemma build_queries_length (isbn title author : option string) :
  length (build_queries isbn title author) ≤ 4.
Proof.
  unfold build_queries.
  destruct (truthy title), (truthy author), (truthy isbn); simpl; lia.
Qed.

End LookupCost.

(** X16. Whatever the arguments and whatever the source does, one call of
    [get_book_details] builds at most 4 query variants, sends at most 12
    requests and spends at most 12 seconds in pauses, 3 per variant. *)
Theorem lookup_cost_bounded
    (src : Books.source) (isbn title author : option string) :
  let queries := Books.build_queries isbn title author in
  let effs := (Books.get_book_details src isbn title author).2 in
  length queries ≤ 4
  ∧ request_count effs ≤ 3 * length queries
  ∧ sleep_total effs ≤ 3 * length queries
  ∧ request_count effs ≤ 12
  ∧ sleep_total effs ≤ 12.
Proof.
  intros queries effs. subst effs. unfold Books.get_book_details. fold queries.
  destruct (lookup_all_spec src queries 0)
    as (r & parts & Hall & Hlen & Hparts & _).
  rewrite Hall. cbn [snd].
  pose proof (build_queries_length isbn title author) as Hq. fold queries in Hq.
  pose proof (parts_requests queries parts Hlen Hparts) as Hr.
  pose proof (parts_sleeps queries parts Hlen Hparts) as Hs.
  unfold request_count. repeat split; lia.
Qed.

Section LookupShape.

Import Books.

Lemma inspect_pageless (items : list item_data) :
  Forall pageless items → inspect_items items = Break.
Proof.
  induction 1 as [|[info|] items Hp _ IH]; simpl in *; [done | | done].
  by rewrite Hp.
Qed.

Lemma try_body_without_pages (r : response) :
  answers_without_pages r → try_body r = Break.
Proof.
  destruct r as [|[items|]]; simpl; [done | | done]. apply inspect_pageless.
Qed.

Lemma lookup_all_answered (src : source) (queries : list string) (calls : nat) :
  (∀ n q, answers_without_pages (src n q)) →
  lookup_all src queries calls = (None, map (λ q, Request q 0) queries).
Proof.
  intros Hsrc. revert calls.
  induction queries as [|q queries IH]; intros calls; [done |].
  cbn [lookup_all]. unfold max_retries. cbn [seq retry].
  rewrite (try_body_without_pages _ (Hsrc calls q)).
  by rewrite IH.
Qed.

Lemma try_body_observed (r : response) : try_body (observed r) = try_body r.
Proof.
  destruct r as [|[items|]]; simpl; try done. by rewrite take_take.
Qed.

Lemma retry_ext (src1 src2 : source) (q : string) (attempts : list nat)
    (calls : nat) :
  (∀ n q, try_body (src1 n q) = try_body (src2 n q)) →
  retry src1 q attempts calls = retry src2 q attempts calls.
Proof.
  intros Hsrc. revert calls.
  induction attempts as [|a attempts IH]; intros calls; [done |].
  cbn [retry]. rewrite Hsrc. by rewrite IH.
Qed.

Lemma lookup_all_ext (src1 src2 : source) (queries : list string) (calls : nat) :
  (∀ n q, try_body (src1 n q) = try_body (src2 n q)) →
  lookup_all src1 queries calls = lookup_all src2 queries calls.
Proof.
  intros Hsrc. revert calls.
  induction queries as [|q queries IH]; intros calls; [done |].
  cbn [lookup_all]. rewrite (retry_ext src1 src2) by done.
  destruct (retry src2 q (seq 0 max_retries) calls) as [[r effs] calls'].
  destruct r; [done |]. by rewrite IH.
Qed.

End LookupShape.

(** X17. An answer that arrives is not asked for again: when the source
    answers every request without error and none of the first three results
    has a non-zero page count, [get_book_details] sends exactly one request
    per query variant, never pauses, and returns the failure string. *)
Theorem answered_variant_is_not_retried
    (src : Books.source) (isbn title author : option string) :
  (∀ n q, answers_without_pages (src n q)) →
  Books.get_book_details src isbn title author
  = (Books.failure_msg,
     map (λ q, Books.Request q 0) (Books.build_queries isbn title author)).
Proof.
  intros Hsrc. unfold Books.get_book_details.
  by rewrite lookup_all_answered.
Qed.

Lemma answered_variant_is_not_retried_witness :
  let src : Books.source := λ _ _,
    Books.Data (Some [Books.Item (Books.VolumeInfo (Some "Dune") None (Some 0%Z));
                      Books.Item (Books.VolumeInfo (Some "Dune") None None)]) in
  (Books.get_book_details src (Some "9780441013593") None None).2
  = [Books.Request "isbn:9780441013593" 0].
Proof.
  intros src.
  rewrite (answered_variant_is_not_retried src (Some "9780441013593") None None).
  - reflexivity.
  - intros n q. simpl. repeat constructor.
Defined.

(** X18. Only the first three results of an answer count: two sources whose
    answers agree on their first three results (and on failing or lacking
    results) make [get_book_details] return the same string with the same
    requests and pauses, so a page count in a fourth or later result is
    never found. *)
Theorem later_results_are_ignored
    (src1 src2 : Books.source) (isbn title author : option string) :
  (∀ n q, observed (src1 n q) = observed (src2 n q)) →
  Books.get_book_details src1 isbn title author
  = Books.get_book_details src2 isbn title author.
Proof.
  intros Hobs. unfold Books.get_book_details.
  rewrite (lookup_all_ext src1 src2); [done |].
  intros n q. by rewrite <- (try_body_observed (src1 n q)), Hobs, try_body_observed.
Qed.

Lemma later_results_are_ignored_witness :
  let blank := Books.Item (Books.VolumeInfo (Some "Dune") None None) in
  let hit := Books.Item (Books.VolumeInfo (Some "Dune") None (Some 412%Z)) in
  let src1 : Books.source := λ _ _, Books.Data (Some [blank; blank; blank; hit]) in
  let src2 : Books.source := λ _ _, Books.Data (Some [blank; blank; blank]) in
  (Books.get_book_details src1 None (Some "Dune") None).1 = Books.failure_msg.
Proof.
  intros blank hit src1 src2.
  rewrite (later_results_are_ignored src1 src2 None (Some "Dune") None).
  - reflexivity.
  - reflexivity.
Defined.

(** ** The metadata lookup: pauses and the first hit *)

Section LookupPauses.

Import Books.

Lemma paused_nil : paused_between_attempts [].
Proof. intros i s Hi. by rewrite lookup_nil in Hi. Qed.

Lemma paused_request (q : string) (a : nat) (effs : list effect) :
  paused_between_attempts effs →
  paused_between_attempts (Request q a :: effs).
Proof.
  intros H [|i] s Hi; [done |]. simpl in Hi.
  destruct (H i s Hi) as (q' & a' & Hpos & Hprev & Hnext & Hs).
  exists q', a'. split; [lia |]. split; [| done].
  destruct i as [|i]; [lia |]. simpl in *. by rewrite Nat.sub_0_r in Hprev.
Qed.

Lemma paused_retry (q : string) (a : nat) (effs : list effect) :
  paused_between_attempts (Request q (S a) :: effs) →
  paused_between_attempts
    (Request q a :: Sleep (2 ^ a) :: Request q (S a) :: effs).
Proof.
  intros H [|[|i]] s Hi; [done | |].
  - injection Hi as <-. exists q, a. repeat split; lia.
  - change ((Request q (S a) :: effs) !! i = Some (Sleep s)) in Hi.
    destruct (H i s Hi) as (q' & a' & Hpos & Hprev & Hnext & Hs).
    exists q', a'. split; [lia |]. split; [| done].
    destruct i as [|i]; [lia |]. simpl in *. by rewrite Nat.sub_0_r in Hprev.
Qed.

Lemma retry_paused (src : source) (q : string) (calls : nat)
    (rest : list effect) :
  paused_between_attempts rest →
  paused_between_attempts
    ((retry src q (seq 0 max_retries) calls).1.2 ++ rest).
Proof.
  intros Hrest. unfold max_retries. cbn [seq retry].
  destruct (try_body (src calls q)); cbn [fst snd app];
    try by apply paused_request.
  destruct (try_body (src (S calls) q)); cbn [fst snd app Nat.ltb Nat.leb Nat.sub];
    try by apply (paused_retry q 0), paused_request.
  destruct (try_body (src (S (S calls)) q)); cbn [fst snd app Nat.ltb Nat.leb Nat.sub];
    by apply (paused_retry q 0), (paused_retry q 1), paused_request.
Qed.

Lemma lookup_all_paused (src : source) (queries : list string) (calls : nat) :
  paused_between_attempts (lookup_all src queries calls).2.
Proof.
  revert calls. induction queries as [|q queries IH]; intros calls.
  { apply paused_nil. }
  cbn [lookup_all].
  pose proof (retry_paused src q calls) as Hretry.
  destruct (retry src q (seq 0 max_retries) calls) as [[r effs] calls'].
  cbn [fst snd] in Hretry. destruct r as [s|].
  - cbn [snd]. rewrite <- (app_nil_r effs). apply Hretry, paused_nil.
  - specialize (IH calls'). destruct (lookup_all src queries calls') as [r' effs'].
    cbn [snd] in *. by apply Hretry.
Qed.

Lemma inspect_first_hit (items : list item_data) (j : nat)
    (info : volume_info) (pages : Z) :
  items !! j = Some (Item info) →
  has_pages info = Some pages →
  (∀ i it, i < j → items !! i = Some it → pageless it) →
  inspect_items items = Return (found_msg info pages).
Proof.
  revert items. induction j as [|j IH]; intros [|it items] Hj Hp Hbefore;
    try done.
  - injection Hj as ->. simpl. by rewrite Hp.
  - pose proof (Hbefore 0 it ltac:(lia) eq_refl) as H0.
    destruct it as [info0|]; [| done]. simpl in H0. simpl. rewrite H0.
    apply IH; [done | done |].
    intros i it' Hi Hit. apply (Hbefore (S i) it'); [lia | done].
Qed.

End LookupPauses.

(** X19. In every call of [get_book_details] each pause lies between two
    attempts of the same query variant, after attempt [a] and before attempt
    [a + 1], and lasts [2 ^ a] seconds; so the call never starts with a
    pause, never pauses after the last attempt of a variant, and never
    pauses just before it returns. *)
Theorem pauses_lie_between_attempts
    (src : Books.source) (isbn title author : option string) :
  let effs := (Books.get_book_details src isbn title author).2 in
  paused_between_attempts effs
  ∧ (∀ s, head effs ≠ Some (Books.Sleep s))
  ∧ (∀ s, last effs ≠ Some (Books.Sleep s)).
Proof.
  cbv zeta.
  assert (Hp : paused_between_attempts
                 (Books.get_book_details src isbn title author).2).
  { unfold Books.get_book_details.
    pose proof (lookup_all_paused src
                  (Books.build_queries isbn title author) 0) as H.
    by destruct (Books.lookup_all _ _ _). }
  split; [done |]. split.
  - intros s Hh.
    destruct ((Books.get_book_details src isbn title author).2) as [|e effs];
      [done |].
    injection Hh as ->. destruct (Hp 0 s eq_refl) as (? & ? & ? & _). lia.
  - intros s Hl. rewrite last_lookup in Hl.
    destruct (Hp _ s Hl) as (q & a & Hpos & _ & Hnext & _).
    apply lookup_lt_Some in Hnext. lia.
Qed.

(** X20. The first result with a page count ends the call: when the first
    answer to the first query variant has, among its first three results, a
    result with a non-zero page count and only results without one before
    it, [get_book_details] returns that result's found-string after this
    single request, without asking for any other variant. *)
Theorem first_hit_returns_at_once
    (src : Books.source) (isbn title author : option string)
    (q : string) (rest : list string) (items : list Books.item_data)
    (j : nat) (info : Books.volume_info) (pages : Z) :
  Books.build_queries isbn title author = q :: rest →
  src 0 q = Books.Data (Some items) →
  j < 3 →
  items !! j = Some (Books.Item info) →
  Books.info_pageCount info = Some pages →
  pages ≠ 0%Z →
  (∀ i it, i < j → items !! i = Some it → pageless it) →
  Books.get_book_details src isbn title author
  = (Books.found_msg info pages, [Books.Request q 0]).
Proof.
  intros Hq Hsrc Hj Hitem Hpc Hnz Hbefore.
  unfold Books.get_book_details. rewrite Hq.
  cbn [Books.lookup_all]. unfold Books.max_retries. cbn [seq Books.retry].
  rewrite Hsrc. cbn [Books.try_body].
  rewrite (inspect_first_hit (take 3 items) j info pages); [done | | |].
  - by rewrite lookup_take_lt.
  - unfold Books.has_pages. rewrite Hpc.
    by destruct (Z.eqb_spec pages 0).
  - intros i it Hi Hit. apply lookup_take_Some in Hit as [Hit _].
    by apply (Hbefore i).
Qed.

Lemma first_hit_returns_at_once_witness :
  let blank := Books.VolumeInfo (Some "Dune (excerpt)") None (Some 0%Z) in
  let hit := Books.VolumeInfo None (Some ["Frank Herbert"]) (Some 412%Z) in
  let src : Books.source := λ _ _,
    Books.Data (Some [Books.Item blank; Books.Item hit; Books.Malformed]) in
  Books.get_book_details src None (Some "Dune") (Some "Herbert")
  = ("Found Book: Unknown by Frank Herbert. Total Pages: 412.",
     [Books.Request (Books.build_queries None (Some "Dune") (Some "Herbert") !!! 0) 0]).
Proof.
  intros blank hit src.
  apply (first_hit_returns_at_once src None (Some "Dune") (Some "Herbert")
           (Books.build_queries None (Some "Dune") (Some "Herbert") !!! 0)
           (tail (Books.build_queries None (Some "Dune") (Some "Herbert")))
           [Books.Item blank; Books.Item hit; Books.Malformed] 1 hit 412%Z).
  - reflexivity.
  - reflexivity.
  - lia.
  - reflexivity.
  - reflexivity.
  - discriminate.
  - intros [|i] it Hi Hit; [| lia]. injection Hit as <-. reflexivity.
Defined.

(** ** The metadata lookup: the query variants *)

Section Variants.

Import Books.

Variables (t a i : string).









End Variants.



(** ** Recovery and loop together *)

(** X22. A finished session stays finished after a restart: when the
    session state has no [current_phase] and the history holds the
    engagement marker, [_run_async_impl] restores complete, invokes no
    worker, yields nothing and ends at once on the terminal phase. *)
Theorem finished_session_stays_finished
    (w : worker) (st : state) (events : list event) :
  st !! "current_phase" = None →
  Recovery.marked Recovery.engagement_marker events →
  run_async_impl w st events
  = Run (<["current_phase" := VStr "complete"]> st) [] [SawComplete]
        WorkflowComplete.
Proof.
  intros Hnone Hm. apply marked_existsb in Hm.
  unfold run_async_impl, Recovery.recover. rewrite Hnone.
  unfold Recovery.restored_phase.
  destruct (scan_flags events) as (_ & _ & ->). rewrite Hm.
  unfold orchestration_loop, max_loops. cbn [while_loop].
  by rewrite lookup_insert_eq.
Qed.

Lemma finished_session_stays_finished_witness :
  let history :=
    [Event (Some "Task 'engagement_generation' marked as complete. Workflow Complete.");
     Event (Some "Task 'book_discovery' marked as complete. Advancing to Scheduling.")] in
  invoked_agents (iterations (run_async_impl restless ∅ history)) = [].
Proof.
  intros history.
  rewrite (finished_session_stays_finished restless ∅ history).
  - reflexivity.
  - apply lookup_empty.
  - apply Exists_cons_hd. by vm_compute.
Defined.

(** X23. The loop keeps the phase inside the enumeration when the workers
    do: started on one of the four phase names, with workers that leave a
    phase name whenever they find one (as workers that only use the
    completion signal do), the loop never has to reset, never raises, and
    ends with [current_phase] holding one of the four names. *)
Theorem loop_keeps_phase_recognised (w : worker) (st : state) (p : phase) :
  st !! "current_phase" = Some (VStr (phase_name p)) →
  (∀ k a s, (∃ q, s !! "current_phase" = Some (VStr (phase_name q))) →
            ∃ q, (w k a s).1 !! "current_phase" = Some (VStr (phase_name q))) →
  let r := orchestration_loop w st in
  (∃ q, final_state r !! "current_phase" = Some (VStr (phase_name q)))
  ∧ (∀ v, ResetUnknown v ∉ iterations r)
  ∧ ended r ≠ RaisedKeyError.
Proof.
  intros Hcur Hw. cbv zeta. unfold orchestration_loop.
  generalize max_loops 0. intros n k. revert k st p Hcur.
  induction n as [|n IH]; intros k st p Hcur.
  { simpl. split; [by exists p |]. split; [| done].
    intros v Hin. by apply elem_of_nil in Hin. }
  simpl. rewrite Hcur.
  destruct (route_phase (VStr (phase_name p))) as [b| |] eqn:Hroute; simpl.
  - destruct (Hw (S k) b st) as [q Hq]; [by eexists |].
    destruct (w (S k) b st) as [st' evs]. simpl in Hq. rewrite Hq.
    case_bool_decide; simpl.
    + destruct (IH (S k) st' q Hq) as (Hf & Hr & He).
      split; [done |]. split; [| done].
      intros v Hin. apply elem_of_cons in Hin as [?|Hin]; [done |].
      by apply (Hr v).
    + split; [by exists q |]. split; [| done].
      intros v Hin. apply elem_of_cons in Hin as [?|Hin]; [done |].
      by apply elem_of_nil in Hin.
  - split; [by exists p |]. split; [| done].
    intros v Hin. apply elem_of_cons in Hin as [?|Hin]; [done |].
    by apply elem_of_nil in Hin.
  - by destruct p.
Qed.

Lemma loop_keeps_phase_recognised_witness :
  let st : state := {["current_phase" := VStr "scheduling"]} in
  ∃ q, final_state (orchestration_loop diligent st) !! "current_phase"
       = Some (VStr (phase_name q)).
Proof.
  intros st.
  destruct (loop_keeps_phase_recognised diligent st Scheduling) as (Hf & _).
  - reflexivity.
  - intros k a s Hs. rewrite diligent_run. cbn [fst].
    apply mark_keeps_recognised. by right.
  - exact Hf.
Defined.

(** ** The metadata lookup: what each attempt decides *)

Section Attempts.

Import Books.



Lemma inspect_first_malformed (items : list item_data) (j : nat) :
  items !! j = Some Malformed →
  (∀ i it, i < j → items !! i = Some it → pageless it) →
  inspect_items items = Raise.
Proof.
  revert items. induction j as [|j IH]; intros [|it items] Hj Hbefore; try done.
  - by injection Hj as ->.
  - pose proof (Hbefore 0 it ltac:(lia) eq_refl) as H0.
    destruct it as [info0|]; [| done]. simpl in H0. simpl. rewrite H0.
    apply IH; [done |].
    intros i it' Hi Hit. apply (Hbefore (S i) it'); [lia | done].
Qed.

Lemma hit_try_body (r : response) (info : volume_info) (pages : Z) :
  hit r info pages → try_body r = Return (found_msg info pages).
Proof.
  intros (items & j & -> & Hj & Hitem & Hpc & Hnz & Hbefore). simpl.
  apply (inspect_first_hit (take 3 items) j info pages).
  - by rewrite lookup_take_lt.
  - unfold has_pages. rewrite Hpc. by destruct (Z.eqb_spec pages 0).
  - intros i it Hi Hit. apply lookup_take_Some in Hit as [Hit _].
    by apply (Hbefore i).
Qed.

Lemma raises_try_body (r : response) : raises r → try_body r = Raise.
Proof.
  intros [-> | (items & j & -> & Hj & Hitem & Hbefore)]; [done |]. simpl.
  apply (inspect_first_malformed (take 3 items) j).
  - by rewrite lookup_take_lt.
  - intros i it Hi Hit. apply lookup_take_Some in Hit as [Hit _].
    by apply (Hbefore i).
Qed.

(** The three ways an attempt can end exclude one another. *)
Lemma attempt_ends_one_way (r : response) :
  (∀ info pages, hit r info pages → ¬ answers_without_pages r ∧ ¬ raises r)
  ∧ (answers_without_pages r → ¬ raises r).
Proof.
  split.
  - intros info pages Hh. apply hit_try_body in Hh. split; intros H.
    + apply try_body_without_pages in H. congruence.
    + apply raises_try_body in H. congruence.
  - intros Ha Hr. apply try_body_without_pages in Ha.
    apply raises_try_body in Hr. congruence.
Qed.



End Attempts.

(** ** The metadata lookup: the run of a call, request by request *)

Section Run.

Import Books.

Variable src : source.




End Run.


